(** * HashedFC: a fully connected layer pruned through LSH buckets

    Shallow embedding of [hashedFC.py] (class [HashedFC]) and the properties
    of its activation counters, representative selection and pruning.

    Modelling conventions.
    - Tensors of rank 2 are a list of rows together with their number of
      columns (a tensor with no row still has a column count); tensors of
      rank 1 are lists.
    - Weights and biases are single-precision floats in the source; they are
      idealised here as rationals ([Q]), compared with [==].  The activation
      counters are floats too, but they only ever hold sums of 0/1 masks:
      they are modelled as integers ([Z]).
    - Indices are Python integers or entries of [torch.long] tensors: [Z].
      A tensor index [i] along an axis of size [n] is valid when
      [-n <= i < n]; negative indices count from the end.
    - Every exception of the source (IndexError, ZeroDivisionError, a shape
      mismatch in a broadcast) is the result [None].
    - The LSH index ([lsh.py], [simHash.py]) is an external collaborator:
      the list of buckets returned by [self.lsh.representatives()] is an
      argument of [select_representatives], each bucket being listed in its
      iteration order.
    - [uniform_] draws random numbers: the draw for cell [(i, j)] is given
      by an argument [rng : nat -> nat -> Q]. *)

From Stdlib Require Import ZArith QArith Lia.
From stdpp Require Import base option list.

Open Scope Z_scope.

(** ** Tensors *)

Record Tensor2 (A : Type) := T2 { t_cols : nat; t_rows : list (list A) }.
Arguments T2 {A} _ _.
Arguments t_cols {A} _.
Arguments t_rows {A} _.

Definition t_nrows {A} (t : Tensor2 A) : nat := length (t_rows t).

(** Every row has [t_cols] entries. *)
Definition t_wf {A} (t : Tensor2 A) : Prop :=
  Forall (fun r => length r = t_cols t) (t_rows t).

(** Two tensors of the same shape, row by row. *)
Definition same_shape {A} (t u : Tensor2 A) : Prop :=
  t_cols t = t_cols u /\ length <$> t_rows t = length <$> t_rows u.

(** [torch.zeros(r, c)] *)
Definition zeros (r c : nat) : Tensor2 Z := T2 c (replicate r (replicate c 0)).

(** Index normalisation along an axis of size [n]. *)
Definition norm_index (n : nat) (i : Z) : option nat :=
  if decide (0 <= i < Z.of_nat n) then Some (Z.to_nat i)
  else if decide (- Z.of_nat n <= i < 0) then Some (Z.to_nat (i + Z.of_nat n))
  else None.

(** The cell at a position already normalised. *)
Definition cell {A} (t : Tensor2 A) (i j : nat) : option A :=
  r ← t_rows t !! i; r !! j.

(** [t[r, c]] *)
Definition get2 {A} (t : Tensor2 A) (r c : Z) : option A :=
  i ← norm_index (t_nrows t) r;
  j ← norm_index (t_cols t) c;
  cell t i j.

(** [t[r, c] = v] *)
Definition set2 {A} (t : Tensor2 A) (r c : Z) (v : A) : option (Tensor2 A) :=
  i ← norm_index (t_nrows t) r;
  j ← norm_index (t_cols t) c;
  row ← t_rows t !! i;
  Some (T2 (t_cols t) (<[i := <[j := v]> row]> (t_rows t))).

(** [t[rows, cols]] with two index tensors of the same length. *)
Definition gather2 {A} (t : Tensor2 A) (rows cols : list Z) : option (list A) :=
  mapM (fun rc : Z * Z => get2 t rc.1 rc.2) (zip rows cols).

(** [v[keep]] on a tensor of rank 1. *)
Definition index1 {A} (v : list A) (keep : list Z) : option (list A) :=
  mapM (fun k => i ← norm_index (length v) k; v !! i) keep.

(** The number of columns kept by the slice [:stop] of an axis of size [n]:
    Python clamps [stop] to the axis and counts a negative [stop] from
    the end. *)
Definition slice_len (n : nat) (stop : Z) : nat :=
  if decide (stop < 0) then Z.to_nat (Z.of_nat n + stop)
  else Nat.min (Z.to_nat stop) n.

(** [t[keep, :stop]] *)
Definition index_rows {A} (t : Tensor2 A) (keep : list Z) (stop : Z)
  : option (Tensor2 A) :=
  rs ← mapM (fun k => i ← norm_index (t_nrows t) k; t_rows t !! i) keep;
  Some (T2 (slice_len (t_cols t) stop) (take (slice_len (t_cols t) stop) <$> rs)).

(** [dst.copy_(src)] on rank 2 with [dst] of shape [(length (t_rows src), c)]:
    the source is broadcast to the destination, which torch allows along an
    axis when the sizes agree or the source has size 1. *)
Definition copy2 {A} (c : nat) (src : Tensor2 A) : option (Tensor2 A) :=
  if decide (t_cols src = c) then Some src
  else if decide (t_cols src = 1%nat) then
    Some (T2 c ((fun r => match r with
                          | x :: _ => replicate c x
                          | [] => []
                          end) <$> t_rows src))
  else None.

(** ** Sums and argmax *)

Definition sumZ (l : list Z) : Z := foldr Z.add 0 l.
Definition sumQ (l : list Q) : Q := foldr Qplus 0%Q l.

(** [torch.argmax] on rank 1: the position of the first maximal value. *)
Fixpoint argmax_from (best : Z) (besti i : nat) (l : list Z) : nat :=
  match l with
  | [] => besti
  | x :: l' =>
      if decide (best < x) then argmax_from x i (S i) l'
      else argmax_from best besti (S i) l'
  end.

Definition argmax (l : list Z) : nat :=
  match l with
  | [] => 0%nat
  | x :: l' => argmax_from x 0 1 l'
  end.

(** ** The layer *)

(** [nn.Linear]: [weight] has shape [(out_features, in_features)]. *)
Record Linear := mkLinear { weight : Tensor2 Q; bias : list Q }.

Record HashedFC := mkHashedFC {
  params : Linear;
  K : Z;
  D : Z;
  num_class : Z;
  rehash : bool;
  running_activations : Tensor2 Z;
  lsh : bool  (* [false]: [None]; [true]: an index has been built *)
}.

(** [init_weights]: every weight is redrawn, every bias is set to zero. *)
Definition init_weights (rng : nat -> nat -> Q) (l : Linear) : Linear :=
  mkLinear
    (T2 (t_cols (weight l))
        (imap (fun i row => imap (fun j _ => rng i j) row) (t_rows (weight l))))
    ((fun _ => 0%Q) <$> bias l).

(** [nn.Linear(in_features, out_features)]: fresh storage, whose content
    is given by [fresh]. *)
Definition new_linear (fresh : nat -> nat -> Q) (in_features out_features : nat)
  : Linear :=
  mkLinear
    (T2 in_features
        ((fun i => (fun j => fresh i j) <$> seq 0 in_features)
           <$> seq 0 out_features))
    (replicate out_features 0%Q).

(** [__init__]; a negative dimension raises in [nn.Linear].  (So does a
    dimension too large for a tensor to be allocated, which is not
    modelled: the statements are about the calls that return.) *)
Definition init (rng : nat -> nat -> Q) (input_dim output_dim K0 : Z)
  : option HashedFC :=
  if decide (0 <= input_dim /\ 0 <= output_dim) then
    Some (mkHashedFC
            (init_weights rng
               (new_linear rng (Z.to_nat input_dim) (Z.to_nat output_dim)))
            K0 input_dim output_dim false
            (zeros (Z.to_nat input_dim) (Z.to_nat output_dim))
            false)
  else None.

(** ** accumulate_metrics *)

(** [(activations > 0).float()] *)
Definition positive (x : Q) : Z := if decide (0 < Qnum x) then 1 else 0.

Definition activation_mask (activations : Tensor2 Q) : Tensor2 Z :=
  T2 (t_cols activations)
     ((fun row : list Q => positive <$> row) <$> t_rows activations).

(** [torch.sum(_, dim=0)] *)
Definition sum_dim0 (t : Tensor2 Z) : list Z :=
  foldr (zip_with Z.add) (replicate (t_cols t) 0) (t_rows t).

(** [t += v.unsqueeze(0)]: [v] is broadcast over the rows of [t]; along the
    columns the sizes must agree, or [v] has a single entry. *)
Definition add_broadcast0 (t : Tensor2 Z) (v : list Z) : option (Tensor2 Z) :=
  if decide (length v = t_cols t) then
    Some (T2 (t_cols t) ((fun row => zip_with Z.add row v) <$> t_rows t))
  else
    match v with
    | [x] =>
        Some (T2 (t_cols t)
                ((fun row : list Z => (fun y => y + x) <$> row) <$> t_rows t))
    | _ => None
    end.

Definition accumulate_metrics (activations : Tensor2 Q) (st : HashedFC)
  : option HashedFC :=
  let activation_summed := sum_dim0 (activation_mask activations) in
  ra ← add_broadcast0 (running_activations st) activation_summed;
  Some (mkHashedFC (params st) (K st) (D st) (num_class st) (rehash st)
                   ra (lsh st)).

(** ** select_representatives *)

(** [a // b] and [a % b]: floor division and its remainder, which raise
    when the divisor is zero.  (Old versions of torch truncate [//] on
    tensors; on the non-negative indices that an index of rows holds the
    two roundings agree.) *)
Definition floordiv (a b : Z) : option Z :=
  if decide (b = 0) then None else Some (a `div` b).

Definition pymod (a b : Z) : option Z :=
  if decide (b = 0) then None else Some (a `mod` b).

(** The conversion of a bucket member to a (row, column) pair, and of the
    pair of the most activated member back to an index, as written in
    the source. *)
Definition row_of (st : HashedFC) (f : Z) : option Z := floordiv f (num_class st).
Definition col_of (st : HashedFC) (f : Z) : option Z := pymod f (D st).
Definition flat_of (st : HashedFC) (row col : Z) : Z := row * num_class st + col.

(** [representative_weight] from the gathered weights and activations. *)
Definition representative_weight (bucket_weights : list Q)
    (bucket_activations : list Z) : Q :=
  let weighted_sum :=
    sumQ (zip_with Qmult bucket_weights (inject_Z <$> bucket_activations)) in
  let activation_sum := sumZ bucket_activations in
  if decide (activation_sum = 0) then 0%Q
  else (weighted_sum / inject_Z activation_sum)%Q.

(** The body of the loop for a bucket with several members. *)
Definition reduce_bucket (st : HashedFC) (new_weights : Tensor2 Q)
    (bucket : list Z) : option (Z * Tensor2 Q) :=
  rows ← mapM (row_of st) bucket;
  cols ← mapM (col_of st) bucket;
  bucket_activations ← gather2 (running_activations st) rows cols;
  bucket_weights ← gather2 (weight (params st)) rows cols;
  let argmax_idx := argmax bucket_activations in
  most_activated_row ← rows !! argmax_idx;
  most_activated_col ← cols !! argmax_idx;
  nw ← set2 new_weights most_activated_row most_activated_col
         (representative_weight bucket_weights bucket_activations);
  Some (flat_of st most_activated_row most_activated_col, nw).

(** One iteration of the loop over the buckets: the representative index
    stored at the bucket's position, and [new_weights] after it. *)
Definition process_bucket (st : HashedFC) (new_weights : Tensor2 Q)
    (bucket : list Z) : option (Z * Tensor2 Q) :=
  match bucket with
  | [] => Some (-1, new_weights)
  | [single_idx] =>
      row ← row_of st single_idx;
      col ← col_of st single_idx;
      w ← get2 (weight (params st)) row col;
      nw ← set2 new_weights row col w;
      Some (single_idx, nw)
  | _ => reduce_bucket st new_weights bucket
  end.

Fixpoint process_buckets (st : HashedFC) (new_weights : Tensor2 Q)
    (bucket_indices : list (list Z)) : option (list Z * Tensor2 Q) :=
  match bucket_indices with
  | [] => Some ([], new_weights)
  | bucket :: rest =>
      '(r, nw) ← process_bucket st new_weights bucket;
      '(rs, nw') ← process_buckets st nw rest;
      Some (r :: rs, nw')
  end.

(** [bucket_indices] is what [self.lsh.representatives()] returns once the
    index has been built or rebuilt from the current weights.  The result
    is [representative_indices] and the layer with its weights replaced by
    [new_weights]. *)
Definition select_representatives (bucket_indices : list (list Z))
    (st : HashedFC) : option (list Z * HashedFC) :=
  '(representative_indices, new_weights) ←
     process_buckets st (weight (params st)) bucket_indices;
  Some (representative_indices,
        mkHashedFC (mkLinear new_weights (bias (params st)))
                   (K st) (D st) (num_class st) (rehash st)
                   (running_activations st) true).

(** The normalised position written for a bucket with several members. *)
Definition chosen_position (st : HashedFC) (bucket : list Z)
  : option (nat * nat) :=
  rows ← mapM (row_of st) bucket;
  cols ← mapM (col_of st) bucket;
  bucket_activations ← gather2 (running_activations st) rows cols;
  row ← rows !! argmax bucket_activations;
  col ← cols !! argmax bucket_activations;
  i ← norm_index (t_nrows (weight (params st))) row;
  j ← norm_index (t_cols (weight (params st))) col;
  Some (i, j).

(** ** prune_weights *)

(** [pruned_weights] and [pruned_biases] *)
Definition pruned_weights (st : HashedFC) (representatives : list Z)
    (input_dim : Z) : option (Tensor2 Q) :=
  index_rows (weight (params st)) representatives input_dim.

Definition pruned_biases (st : HashedFC) (representatives : list Z)
  : option (list Q) :=
  index1 (bias (params st)) representatives.

(** The new layer once the slices have been copied into it, before
    [init_weights] runs.  [nn.Linear] raises on a negative [input_dim]. *)
Definition copied_layer (st : HashedFC) (representatives : list Z)
    (input_dim : Z) : option Linear :=
  pw ← pruned_weights st representatives input_dim;
  pb ← pruned_biases st representatives;
  if decide (0 <= input_dim) then
    w ← copy2 (Z.to_nat input_dim) pw;
    Some (mkLinear w pb)
  else None.

Definition prune_weights (rng : nat -> nat -> Q) (representatives : list Z)
    (input_dim : Z) (st : HashedFC) : option HashedFC :=
  new_layer ← copied_layer st representatives input_dim;
  Some (mkHashedFC (init_weights rng new_layer)
                   (K st) input_dim (Z.of_nat (length representatives))
                   (rehash st) (running_activations st) (lsh st)).

(** [update_weights] *)
Definition update_weights (rng : nat -> nat -> Q)
    (bucket_indices : list (list Z)) (input_dim : Z) (st : HashedFC)
  : option HashedFC :=
  '(representatives, st') ← select_representatives bucket_indices st;
  prune_weights rng representatives input_dim st'.

(** ** The reduction rule as the specification words it *)

(** For members with activation counts [a_i] and weights [w_i], given as
    pairs [(a_i, w_i)]: the activation-weighted mean of the weights, and 0
    when the activation counts sum to zero. *)
Definition weighted_mean (members : list (Z * Q)) : Q :=
  let activation_sum := sumZ (fst <$> members) in
  if decide (activation_sum = 0) then 0%Q
  else (sumQ ((fun m : Z * Q => inject_Z m.1 * m.2) <$> members)
        / inject_Z activation_sum)%Q.



(** ** Vocabulary of the statements *)

(** The sentinel stored for an empty bucket. *)
Definition sentinel : Z := -1.

(** The number of non-sentinel representative indices. *)
Definition count_valid (representatives : list Z) : nat :=
  length (filter (fun r => r <> sentinel) representatives).

(** The shape of a rank 2 tensor. *)
Definition shape {A} (t : Tensor2 A) : nat * nat := (t_nrows t, t_cols t).

(** ** Concrete layers *)

(** A layer with 2 inputs and 3 outputs, its weights and biases as
    training may have left them, and counters as two positive samples
    for units 0 and 2 leave them. *)
Definition trained_layer : HashedFC :=
  mkHashedFC
    (mkLinear (T2 2 [[1; 2]; [3; 4]; [5; 6]]%Q) [7; 8; 9]%Q)
    4 2 3 false
    (T2 3 [[2; 0; 2]; [2; 0; 2]])
    false.

(** A square layer whose first row holds the weights 1.0 and 3.0, with
    activation counts 2 and 6. *)
Definition square_layer : HashedFC :=
  mkHashedFC
    (mkLinear (T2 2 [[1; 3]; [0; 0]]%Q) [0; 0]%Q)
    4 2 2 false
    (T2 2 [[2; 6]; [2; 6]])
    false.

(** A layer without any output unit. *)
Definition empty_layer : HashedFC :=
  mkHashedFC (mkLinear (T2 2 []) []) 4 2 0 false (T2 0 [[]; []]) false.

(** ** Reachable states and counter vocabulary *)

(** The states reached from [__init__] by calls of [accumulate_metrics]. *)
Inductive reachable : HashedFC -> Prop :=
| reach_init rng input_dim output_dim K0 st :
    init rng input_dim output_dim K0 = Some st -> reachable st
| reach_accumulate activations st st' :
    reachable st -> accumulate_metrics activations st = Some st' ->
    reachable st'.

(** The number of samples of the batch whose activation for unit [j] is
    positive. *)
Definition count_positive (activations : Tensor2 Q) (j : nat) : Z :=
  sumZ ((fun row : list Q =>
           match row !! j with Some x => positive x | None => 0 end)
          <$> t_rows activations).

(** All rows of the counters are one and the same row of non-negative
    counts. *)
Definition uniform_rows (t : Tensor2 Z) : Prop :=
  exists row, t_rows t = replicate (t_nrows t) row /\
              length row = t_cols t /\ Forall (fun x => 0 <= x) row.

(** A generator that always draws 0. *)
Definition no_rng : nat -> nat -> Q := fun _ _ => 0%Q.

(** A batch of two samples for a layer with 3 output units. *)
Definition sample_batch : Tensor2 Q :=
  T2 3 [[1#2; -(1#3); 2#1]; [3#1; 0#1; 1#5]]%Q.

(** ** forward and the matrix handed to the LSH index *)

Definition dot (u v : list Q) : Q := sumQ (zip_with Qmult u v).

(** [nn.Linear.forward] on a batch: [x @ weight.T + bias], which raises
    when the batch does not have [in_features] columns.  ([nn.Linear]
    keeps one bias per row of [weight].) *)
Definition linear_forward (l : Linear) (x : Tensor2 Q) : option (Tensor2 Q) :=
  if decide (t_cols x = t_cols (weight l)) then
    Some (T2 (t_nrows (weight l))
             ((fun xr : list Q =>
                 zip_with Qplus
                   ((fun wr : list Q => dot xr wr) <$> t_rows (weight l))
                   (bias l))
                <$> t_rows x))
  else None.

(** [forward] *)
Definition forward (x : Tensor2 Q) (st : HashedFC) : option (Tensor2 Q) :=
  linear_forward (params st) x.

(** [weight_tolsh = torch.cat((weight, bias.unsqueeze(1)), dim=1)], as
    [initializeLSH] and [rebuildLSH] build it: each bias is appended to its
    row; [torch.cat] raises when the two row counts differ. *)
Definition weight_tolsh (st : HashedFC) : option (Tensor2 Q) :=
  if decide (length (bias (params st)) = t_nrows (weight (params st))) then
    Some (T2 (S (t_cols (weight (params st))))
             (zip_with (fun (r : list Q) (b : Q) => r ++ [b])
                       (t_rows (weight (params st))) (bias (params st))))
  else None.

(** ** Layer invariants *)

(** The attributes [num_class] and [D] describe the weight matrix, which
    is rectangular and has one bias per row. *)
Definition layer_ok (st : HashedFC) : Prop :=
  0 <= num_class st /\ 0 <= D st /\
  t_wf (weight (params st)) /\
  t_nrows (weight (params st)) = Z.to_nat (num_class st) /\
  t_cols (weight (params st)) = Z.to_nat (D st) /\
  length (bias (params st)) = t_nrows (weight (params st)).

(** The counters can be read at row 0 for every column below [num_class]. *)
Definition counters_ok (st : HashedFC) : Prop :=
  t_wf (running_activations st) /\
  (1 <= t_nrows (running_activations st))%nat /\
  num_class st <= Z.of_nat (t_cols (running_activations st)).

(** Every bucket holds row indices of the weight matrix, as an index of
    its rows does. *)
Definition row_ids (st : HashedFC) (bucket_indices : list (list Z)) : Prop :=
  Forall (Forall (fun f => 0 <= f < num_class st)) bucket_indices.

(** The states reached from [__init__] by any sequence of calls of
    [accumulate_metrics], [select_representatives] and [prune_weights]
    (hence of [update_weights] too) that all return.  A call that raises
    is no step of this relation: [prune_weights] assigns [num_class] and
    [D] before [nn.Linear] and [copy_] run, so that a call raising there
    leaves the two attributes changed and the layer as it was. *)
Inductive reachable_any : HashedFC -> Prop :=
| any_init rng input_dim output_dim K0 st :
    init rng input_dim output_dim K0 = Some st -> reachable_any st
| any_accumulate activations st st' :
    reachable_any st -> accumulate_metrics activations st = Some st' ->
    reachable_any st'
| any_select bucket_indices st reps st' :
    reachable_any st ->
    select_representatives bucket_indices st = Some (reps, st') ->
    reachable_any st'
| any_prune rng representatives input_dim st st' :
    reachable_any st ->
    prune_weights rng representatives input_dim st = Some st' ->
    reachable_any st'.

(** A generator with distinct draws, all within the range of [uniform_]. *)
Definition demo_rng (i j : nat) : Q :=
  Qmake (Z.of_nat (2 * i + j) - 2) 100.

(** * Properties *)

(** ** The activation counters *)

Lemma positive_nonneg x : 0 <= positive x.
Proof. unfold positive. case_decide; lia. Qed.

Lemma Forall_nonneg_zip_add (l k : list Z) :
  Forall (fun x => 0 <= x) l -> Forall (fun x => 0 <= x) k ->
  Forall (fun x => 0 <= x) (zip_with Z.add l k).
Proof.
  intros Hl. revert k. induction Hl as [|x l Hx Hl IH]; intros k Hk; simpl.
  - constructor.
  - destruct Hk as [|y k Hy Hk]; constructor; [lia | auto].
Qed.

Lemma sum_dim0_mask_nonneg activations :
  Forall (fun x => 0 <= x) (sum_dim0 (activation_mask activations)).
Proof.
  unfold sum_dim0, activation_mask; simpl.
  induction (t_rows activations) as [|row rows IH]; simpl.
  - apply Forall_forall. intros x Hx.
    apply elem_of_replicate in Hx. lia.
  - apply Forall_nonneg_zip_add; [|exact IH].
    apply Forall_forall. intros x Hx.
    apply list_elem_of_fmap in Hx as (q & -> & _).
    apply positive_nonneg.
Qed.

Lemma sum_dim0_mask_length activations :
  t_wf activations ->
  length (sum_dim0 (activation_mask activations)) = t_cols activations.
Proof.
  destruct activations as [c rows].
  unfold t_wf, sum_dim0, activation_mask; simpl.
  induction 1 as [|row rows Hrow Hrows IH]; csimpl.
  - apply length_replicate.
  - rewrite length_zip_with, length_fmap, IH, Hrow. lia.
Qed.

Lemma sum_dim0_mask_lookup activations j :
  t_wf activations -> (j < t_cols activations)%nat ->
  sum_dim0 (activation_mask activations) !! j
  = Some (count_positive activations j).
Proof.
  destruct activations as [c rows].
  unfold t_wf, sum_dim0, activation_mask, count_positive; simpl.
  intros Hwf Hj. induction Hwf as [|row rows Hrow Hrows IH]; csimpl.
  - apply lookup_replicate_2. exact Hj.
  - rewrite lookup_zip_with, list_lookup_fmap, IH.
    destruct (lookup_lt_is_Some_2 row j) as [x Hx]; [lia|].
    rewrite Hx. reflexivity.
Qed.

Lemma uniform_rows_zeros r c : uniform_rows (zeros r c).
Proof.
  exists (replicate c 0). unfold zeros, t_nrows; simpl.
  rewrite !length_replicate. split; [reflexivity|]. split; [reflexivity|].
  apply Forall_forall. intros x Hx.
  apply elem_of_replicate in Hx. lia.
Qed.

Lemma fmap_replicate_list {A B} (f : A -> B) n (x : A) :
  f <$> replicate n x = replicate n (f x).
Proof. induction n; simpl; [reflexivity | f_equal; assumption]. Qed.

Lemma add_broadcast0_uniform t v t' :
  uniform_rows t -> Forall (fun x => 0 <= x) v ->
  add_broadcast0 t v = Some t' ->
  uniform_rows t' /\ t_cols t' = t_cols t /\ t_nrows t' = t_nrows t.
Proof.
  intros (row & Hrows & Hlen & Hpos) Hv. unfold add_broadcast0.
  case_decide as Hc.
  - intros [= <-]. unfold uniform_rows, t_nrows; simpl.
    rewrite length_fmap. split; [|split; reflexivity].
    exists (zip_with Z.add row v). split; [|split].
    + rewrite Hrows at 1.
      apply (fmap_replicate_list (fun r => zip_with Z.add r v)).
    + rewrite length_zip_with. lia.
    + apply Forall_nonneg_zip_add; assumption.
  - destruct v as [|x [|y v]]; try discriminate.
    intros [= <-]. unfold uniform_rows, t_nrows; simpl.
    rewrite length_fmap. split; [|split; reflexivity].
    exists ((fun y => y + x) <$> row). split; [|split].
    + rewrite Hrows at 1.
      apply (fmap_replicate_list (fun r : list Z => (fun y => y + x) <$> r)).
    + rewrite length_fmap. exact Hlen.
    + apply Forall_fmap. eapply Forall_impl; [exact Hpos|].
      simpl. intros y Hy. inversion Hv; subst. lia.
Qed.

Lemma reachable_uniform st : reachable st -> uniform_rows (running_activations st).
Proof.
  induction 1 as [rng i o k st Hinit | a st st' Hr IH Hacc].
  - unfold init in Hinit. case_decide; [|discriminate].
    injection Hinit as <-. simpl. apply uniform_rows_zeros.
  - unfold accumulate_metrics in Hacc.
    destruct (add_broadcast0 _ _) as [ra|] eqn:Hadd; [|discriminate].
    injection Hacc as <-. simpl.
    eapply add_broadcast0_uniform; eauto using sum_dim0_mask_nonneg.
Qed.

Lemma uniform_rows_cell t i j x :
  uniform_rows t -> cell t i j = Some x ->
  0 <= x /\ forall i', (i' < t_nrows t)%nat -> cell t i' j = Some x.
Proof.
  intros (row & Hrows & Hlen & Hpos). unfold cell. rewrite Hrows.
  destruct (replicate _ _ !! i) as [r|] eqn:Hr; [|discriminate]. simpl.
  apply lookup_replicate in Hr as [-> Hi]. intros Hx. split.
  - eapply Forall_forall in Hpos; [exact Hpos|].
    eapply list_elem_of_lookup_2; eauto.
  - intros i' Hi'. rewrite lookup_replicate_2 by assumption. exact Hx.
Qed.

Lemma uniform_rows_wf t : uniform_rows t -> t_wf t.
Proof.
  intros (row & Hrows & Hlen & _). unfold t_wf. rewrite Hrows.
  apply Forall_forall. intros r Hr. apply elem_of_replicate in Hr as [-> _].
  exact Hlen.
Qed.

Lemma add_broadcast0_cell t v t' i j x :
  t_wf t -> add_broadcast0 t v = Some t' -> cell t i j = Some x ->
  exists d, cell t' i j = Some (x + d) /\ d ∈ v /\
            (length v = t_cols t -> v !! j = Some d).
Proof.
  intros Hwf Hadd. unfold cell.
  destruct (t_rows t !! i) as [r|] eqn:Hr; [simpl|discriminate]. intros Hx.
  assert (Hlr : length r = t_cols t).
  { eapply Forall_forall in Hwf; [exact Hwf|].
    eapply list_elem_of_lookup_2; eauto. }
  unfold add_broadcast0 in Hadd. case_decide as Hc.
  - injection Hadd as <-. simpl.
    destruct (lookup_lt_is_Some_2 v j) as [d Hd].
    { apply lookup_lt_Some in Hx. lia. }
    exists d. rewrite list_lookup_fmap, Hr. simpl.
    rewrite lookup_zip_with, Hx, Hd. simpl.
    split; [reflexivity|]. split; [|auto].
    eapply list_elem_of_lookup_2; eauto.
  - destruct v as [|d [|? ?]]; try discriminate.
    injection Hadd as <-. simpl. exists d.
    rewrite list_lookup_fmap, Hr. simpl. rewrite list_lookup_fmap, Hx.
    split; [reflexivity|]. split; [apply list_elem_of_here|].
    intros Hl. contradiction.
Qed.

(** C10: in every state reached from initialisation by calls of
    [accumulate_metrics], all entries within one column of
    [running_activations] are equal and every entry is non-negative; a
    further call never decreases an entry, and (for a batch with one
    column per counter column) it adds to every entry of column [j] the
    number of samples whose activation for unit [j] is positive, the same
    amount along the whole first dimension.  Such a call does not raise. *)
Theorem C10_running_activations_invariant st :
  reachable st ->
  (forall i i' j x y,
      cell (running_activations st) i j = Some x ->
      cell (running_activations st) i' j = Some y -> x = y) /\
  (forall i j x, cell (running_activations st) i j = Some x -> 0 <= x) /\
  (forall activations st' i j x,
      accumulate_metrics activations st = Some st' ->
      cell (running_activations st) i j = Some x ->
      exists y, cell (running_activations st') i j = Some y /\ x <= y) /\
  (forall activations,
      t_wf activations ->
      t_cols activations = t_cols (running_activations st) ->
      exists st',
        accumulate_metrics activations st = Some st' /\
        forall i j x,
          cell (running_activations st) i j = Some x ->
          cell (running_activations st') i j
          = Some (x + count_positive activations j)).
Proof.
  intros Hreach. pose proof (reachable_uniform _ Hreach) as Hu.
  pose proof (uniform_rows_wf _ Hu) as Hwf.
  split; [|split; [|split]].
  - intros i i' j x y Hx Hy.
    destruct (uniform_rows_cell _ _ _ _ Hu Hx) as [_ Hall].
    assert (Hi' : (i' < t_nrows (running_activations st))%nat).
    { unfold cell in Hy.
      destruct (t_rows _ !! i') eqn:E; [|discriminate].
      apply lookup_lt_Some in E. exact E. }
    specialize (Hall i' Hi'). congruence.
  - intros i j x Hx. apply (uniform_rows_cell _ _ _ _ Hu Hx).
  - intros a st' i j x Hacc Hx. unfold accumulate_metrics in Hacc.
    destruct (add_broadcast0 _ _) as [ra|] eqn:Hadd; [|discriminate].
    injection Hacc as <-. simpl.
    destruct (add_broadcast0_cell _ _ _ _ _ _ Hwf Hadd Hx) as (d & Hd & Hin & _).
    exists (x + d). split; [exact Hd|].
    pose proof (sum_dim0_mask_nonneg a) as Hpos.
    eapply Forall_forall in Hpos; [|exact Hin]. lia.
  - intros a Hwfa Hcols. unfold accumulate_metrics.
    pose proof (sum_dim0_mask_length a Hwfa) as Hlen.
    destruct (add_broadcast0 (running_activations st)
                (sum_dim0 (activation_mask a))) as [ra|] eqn:Hadd.
    + eexists. split; [reflexivity|]. simpl. intros i j x Hx.
      destruct (add_broadcast0_cell _ _ _ _ _ _ Hwf Hadd Hx)
        as (d & Hd & _ & Hj).
      rewrite Hd. f_equal. f_equal.
      specialize (Hj ltac:(lia)).
      rewrite sum_dim0_mask_lookup in Hj; [congruence | assumption |].
      apply lookup_lt_Some in Hj. lia.
    + unfold add_broadcast0 in Hadd. case_decide; [discriminate | lia].
Qed.

Lemma C10_witness :
  exists st,
    (init no_rng 2 3 4 ≫= accumulate_metrics sample_batch) = Some st /\
    t_rows (running_activations st) = [[2; 0; 2]; [2; 0; 2]] /\
    (forall i i' j x y,
        cell (running_activations st) i j = Some x ->
        cell (running_activations st) i' j = Some y -> x = y).
Proof.
  eexists. split; [vm_compute; reflexivity|]. split; [reflexivity|].
  apply (C10_running_activations_invariant _).
  eapply reach_accumulate with (activations := sample_batch);
    [eapply reach_init with (rng := no_rng) (input_dim := 2)
       (output_dim := 3) (K0 := 4); reflexivity|].
  vm_compute. reflexivity.
Defined.

(** ** Indexing *)

Lemma norm_index_lt n i k : norm_index n i = Some k -> (k < n)%nat.
Proof.
  unfold norm_index. repeat case_decide; intros [= <-]; lia.
Qed.

Lemma same_shape_refl {A} (t : Tensor2 A) : same_shape t t.
Proof. split; reflexivity. Qed.

Lemma same_shape_nrows {A} (t u : Tensor2 A) :
  same_shape t u -> t_nrows t = t_nrows u.
Proof.
  intros [_ H]. unfold t_nrows.
  rewrite <- (length_fmap length (t_rows t)), H. apply length_fmap.
Qed.

Lemma same_shape_trans {A} (t u v : Tensor2 A) :
  same_shape t u -> same_shape u v -> same_shape t v.
Proof. intros [H1 H2] [H3 H4]. split; congruence. Qed.

Lemma same_shape_cell_is_Some {A} (t u : Tensor2 A) i j :
  same_shape t u -> is_Some (cell t i j) -> is_Some (cell u i j).
Proof.
  intros [_ H] [x Hx]. unfold cell in *.
  destruct (t_rows t !! i) as [r|] eqn:Hr; [simpl in Hx|discriminate].
  assert (Hl : (length <$> t_rows u) !! i = Some (length r)).
  { rewrite <- H, list_lookup_fmap, Hr. reflexivity. }
  rewrite list_lookup_fmap in Hl.
  destruct (t_rows u !! i) as [s|]; [simpl in *|discriminate].
  injection Hl as Hl. apply lookup_lt_is_Some.
  apply lookup_lt_Some in Hx. lia.
Qed.

(** What [t[r, c] = v] changes: the shape is kept, and every cell but the
    one addressed keeps its value. *)
Lemma set2_spec {A} (t t' : Tensor2 A) r c v :
  set2 t r c v = Some t' ->
  exists i j,
    norm_index (t_nrows t) r = Some i /\ norm_index (t_cols t) c = Some j /\
    same_shape t' t /\
    forall i' j',
      cell t' i' j' = cell t i' j' \/
      ((i', j') = (i, j) /\ cell t' i' j' = Some v).
Proof.
  unfold set2. intros H.
  destruct (norm_index (t_nrows t) r) as [i|]; [simpl in H|discriminate].
  destruct (norm_index (t_cols t) c) as [j|]; [simpl in H|discriminate].
  destruct (t_rows t !! i) as [row|] eqn:Hrow; [simpl in H|discriminate].
  injection H as <-. exists i, j. split; [reflexivity|]. split; [reflexivity|].
  split.
  - split; [reflexivity|]. simpl.
    rewrite list_fmap_insert, length_insert.
    apply list_insert_id. rewrite list_lookup_fmap, Hrow. reflexivity.
  - intros i' j'. unfold cell; simpl.
    destruct (decide (i = i')) as [<-|Hne].
    + rewrite list_lookup_insert_eq by (eapply lookup_lt_Some; eauto).
      rewrite Hrow. simpl. destruct (decide (j = j')) as [<-|Hnej].
      * destruct (decide (j < length row)%nat) as [Hlt|Hge].
        -- right. split; [reflexivity|]. apply list_lookup_insert_eq, Hlt.
        -- left. rewrite list_insert_ge by lia. reflexivity.
      * left. apply list_lookup_insert_ne. assumption.
    + left. rewrite list_lookup_insert_ne by assumption. reflexivity.
Qed.

Lemma set2_is_Some {A} (t : Tensor2 A) r c v i j :
  norm_index (t_nrows t) r = Some i -> norm_index (t_cols t) c = Some j ->
  is_Some (cell t i j) ->
  exists t', set2 t r c v = Some t' /\ get2 t' r c = Some v.
Proof.
  intros Hi Hj [x Hx]. unfold set2, get2, t_nrows. unfold t_nrows in Hi.
  rewrite Hi, Hj. simpl. unfold cell in Hx.
  destruct (t_rows t !! i) as [row|] eqn:Hrow; [simpl in *|discriminate].
  eexists. split; [reflexivity|]. simpl. rewrite length_insert, Hi. simpl.
  rewrite Hj. simpl. unfold cell. simpl.
  rewrite list_lookup_insert_eq by (eapply lookup_lt_Some; eauto). simpl.
  apply list_lookup_insert_eq. eapply lookup_lt_Some; eauto.
Qed.

Lemma get2_cell {A} (t : Tensor2 A) r c x :
  get2 t r c = Some x ->
  exists i j, norm_index (t_nrows t) r = Some i /\
              norm_index (t_cols t) c = Some j /\ cell t i j = Some x.
Proof.
  unfold get2. intros H.
  destruct (norm_index (t_nrows t) r) as [i|]; [simpl in H|discriminate].
  destruct (norm_index (t_cols t) c) as [j|]; [simpl in H|discriminate].
  eauto.
Qed.

Lemma set2_get2_id {A} (t : Tensor2 A) r c x :
  get2 t r c = Some x -> set2 t r c x = Some t.
Proof.
  intros H. destruct (get2_cell _ _ _ _ H) as (i & j & Hi & Hj & Hc).
  unfold set2. rewrite Hi, Hj. simpl. unfold cell in Hc.
  destruct (t_rows t !! i) as [row|] eqn:Hrow; [simpl in *|discriminate].
  rewrite (list_insert_id row j x Hc), (list_insert_id _ i row Hrow).
  destruct t; reflexivity.
Qed.

(** ** argmax *)

Lemma argmax_from_spec l : forall best besti i,
  (argmax_from best besti i l = besti /\ Forall (fun x => x <= best) l) \/
  (exists k m, argmax_from best besti i l = (i + k)%nat /\
               l !! k = Some m /\ best < m /\ Forall (fun x => x <= m) l /\
               forall k' x, (k' < k)%nat -> l !! k' = Some x -> x < m).
Proof.
  induction l as [|x l IH]; intros best besti i; simpl.
  - left. split; [reflexivity | constructor].
  - case_decide as Hlt.
    + right. destruct (IH x i (S i)) as [[Hr Hall] | (k & m & Hr & Hk & Hm & Hall & Hbefore)].
      * exists 0%nat, x. rewrite Hr. split; [lia|]. split; [reflexivity|].
        split; [assumption|]. split; [constructor; [lia | assumption]|].
        intros; lia.
      * exists (S k), m. rewrite Hr. split; [lia|]. split; [exact Hk|].
        split; [lia|]. split; [constructor; [lia | assumption]|].
        intros [|k'] y Hk' Hy; simpl in Hy.
        -- injection Hy as <-. exact Hm.
        -- apply (Hbefore k'); [lia | exact Hy].
    + destruct (IH best besti (S i)) as [[Hr Hall] | (k & m & Hr & Hk & Hm & Hall & Hbefore)].
      * left. split; [exact Hr|]. constructor; [lia | assumption].
      * right. exists (S k), m. rewrite Hr. split; [lia|]. split; [exact Hk|].
        split; [exact Hm|]. split; [constructor; [lia | assumption]|].
        intros [|k'] y Hk' Hy; simpl in Hy.
        -- injection Hy as <-. lia.
        -- apply (Hbefore k'); [lia | exact Hy].
Qed.

(** [argmax] returns the position of the first maximal value. *)
Lemma argmax_first_max l :
  l <> [] ->
  exists m, l !! argmax l = Some m /\
            Forall (fun x => x <= m) l /\
            forall k x, (k < argmax l)%nat -> l !! k = Some x -> x < m.
Proof.
  destruct l as [|x l]; [congruence|]. intros _. unfold argmax.
  destruct (argmax_from_spec l x 0%nat 1%nat)
    as [[Hr Hall] | (k & m & Hr & Hk & Hm & Hall & Hbefore)]; rewrite Hr.
  - exists x. split; [reflexivity|]. split; [constructor; [lia|assumption]|].
    intros; lia.
  - exists m. split; [exact Hk|]. split; [constructor; [lia|assumption]|].
    intros [|k'] y Hk' Hy; simpl in Hy.
    + injection Hy as <-. exact Hm.
    + apply (Hbefore k'); [lia | exact Hy].
Qed.

Lemma argmax_lt l : l <> [] -> (argmax l < length l)%nat.
Proof.
  intros H. destruct (argmax_first_max l H) as (m & Hm & _).
  eapply lookup_lt_Some; eauto.
Qed.

(** ** select_representatives *)

Lemma process_bucket_frame st nw bucket r nw' :
  same_shape nw (weight (params st)) ->
  process_bucket st nw bucket = Some (r, nw') ->
  same_shape nw' nw /\
  forall i j,
    cell nw' i j = cell nw i j \/
    (length bucket = 1%nat /\ cell nw' i j = cell (weight (params st)) i j) \/
    ((2 <= length bucket)%nat /\ chosen_position st bucket = Some (i, j)).
Proof.
  intros Hshape Hpb.
  pose proof (same_shape_nrows _ _ Hshape) as Hnr. destruct Hshape as [Hnc _].
  destruct bucket as [|f [|g bucket]].
  - injection Hpb as <- <-. split; [apply same_shape_refl | auto].
  - unfold process_bucket in Hpb.
    destruct (row_of st f) as [row|]; [simpl in Hpb|discriminate].
    destruct (col_of st f) as [col|]; [simpl in Hpb|discriminate].
    destruct (get2 _ row col) as [w|] eqn:Hw; [simpl in Hpb|discriminate].
    destruct (set2 nw row col w) as [nw1|] eqn:Hset; [simpl in Hpb|discriminate].
    injection Hpb as <- <-.
    destruct (set2_spec _ _ _ _ _ Hset) as (i & j & Hi & Hj & Hsh & Hcells).
    destruct (get2_cell _ _ _ _ Hw) as (i0 & j0 & Hi0 & Hj0 & Hc0).
    rewrite Hnr in Hi. rewrite Hnc in Hj.
    assert (i0 = i) as -> by congruence. assert (j0 = j) as -> by congruence.
    split; [exact Hsh|]. intros i' j'.
    destruct (Hcells i' j') as [Heq | [[= -> ->] Hv]]; [auto|].
    right. left. split; [reflexivity | congruence].
  - assert (Hlen : (2 <= length (f :: g :: bucket))%nat) by (simpl; lia).
    unfold process_bucket in Hpb. revert Hlen Hpb.
    generalize (f :: g :: bucket). clear f g bucket. intros bucket Hlen Hpb.
    unfold reduce_bucket in Hpb.
    destruct (mapM (row_of st) bucket) as [rows|] eqn:Erows;
      [simpl in Hpb|discriminate].
    destruct (mapM (col_of st) bucket) as [cols|] eqn:Ecols;
      [simpl in Hpb|discriminate].
    destruct (gather2 (running_activations st) rows cols) as [acts|] eqn:Eacts;
      [simpl in Hpb|discriminate].
    destruct (gather2 (weight (params st)) rows cols) as [ws|] eqn:Ews;
      [simpl in Hpb|discriminate].
    destruct (rows !! argmax acts) as [row|] eqn:Erow;
      [simpl in Hpb|discriminate].
    destruct (cols !! argmax acts) as [col|] eqn:Ecol;
      [simpl in Hpb|discriminate].
    destruct (set2 nw row col _) as [nw1|] eqn:Hset; [simpl in Hpb|discriminate].
    injection Hpb as <- <-.
    destruct (set2_spec _ _ _ _ _ Hset) as (i & j & Hi & Hj & Hsh & Hcells).
    rewrite Hnr in Hi. rewrite Hnc in Hj.
    split; [exact Hsh|]. intros i' j'.
    destruct (Hcells i' j') as [Heq | [[= -> ->] Hv]]; [auto|].
    right. right. split; [exact Hlen|]. unfold chosen_position.
    rewrite Erows. simpl. rewrite Ecols. simpl. rewrite Eacts. simpl.
    rewrite Erow. simpl. rewrite Ecol. simpl. rewrite Hi. simpl.
    rewrite Hj. reflexivity.
Qed.

Lemma process_buckets_frame st bucket_indices : forall nw reps nw',
  same_shape nw (weight (params st)) ->
  process_buckets st nw bucket_indices = Some (reps, nw') ->
  same_shape nw' (weight (params st)) /\
  forall i j,
    cell nw' i j = cell nw i j \/
    cell nw' i j = cell (weight (params st)) i j \/
    exists bucket, bucket ∈ bucket_indices /\ (2 <= length bucket)%nat /\
                   chosen_position st bucket = Some (i, j).
Proof.
  induction bucket_indices as [|b bs IH]; intros nw reps nw' Hshape Hrun.
  - injection Hrun as <- <-. auto.
  - simpl in Hrun.
    destruct (process_bucket st nw b) as [[r nw1]|] eqn:Hb;
      [simpl in Hrun|discriminate].
    destruct (process_buckets st nw1 bs) as [[rs nw2]|] eqn:Hbs;
      [simpl in Hrun|discriminate].
    injection Hrun as <- <-.
    destruct (process_bucket_frame _ _ _ _ _ Hshape Hb) as [Hsh1 Hstep].
    assert (Hshape1 : same_shape nw1 (weight (params st)))
      by (eapply same_shape_trans; eauto).
    destruct (IH _ _ _ Hshape1 Hbs) as [Hsh2 Hrest].
    split; [exact Hsh2|]. intros i j.
    destruct (Hrest i j) as [Heq | [Horig | (b' & Hin & Hlen & Hpos)]].
    + rewrite Heq.
      destruct (Hstep i j) as [Heq1 | [[_ Horig] | [Hlen Hpos]]]; [auto..|].
      right. right. exists b. split; [apply list_elem_of_here | auto].
    + auto.
    + right. right. exists b'. split; [apply list_elem_of_further, Hin | auto].
Qed.

Lemma process_buckets_no_merge st bucket_indices : forall reps nw',
  Forall (fun bucket => (length bucket <= 1)%nat) bucket_indices ->
  process_buckets st (weight (params st)) bucket_indices = Some (reps, nw') ->
  nw' = weight (params st).
Proof.
  induction bucket_indices as [|b bs IH]; intros reps nw' Hall Hrun.
  - injection Hrun as <- <-. reflexivity.
  - inversion Hall as [|? ? Hb Hbs]; subst. simpl in Hrun.
    destruct (process_bucket st _ b) as [[r nw1]|] eqn:Hpb;
      [simpl in Hrun|discriminate].
    assert (nw1 = weight (params st)) as ->.
    { destruct b as [|f [|g b]]; [| |simpl in Hb; lia].
      - injection Hpb as <- <-. reflexivity.
      - unfold process_bucket in Hpb.
        destruct (row_of st f) as [row|]; [simpl in Hpb|discriminate].
        destruct (col_of st f) as [col|]; [simpl in Hpb|discriminate].
        destruct (get2 _ row col) as [w|] eqn:Hw; [simpl in Hpb|discriminate].
        rewrite (set2_get2_id _ _ _ _ Hw) in Hpb. simpl in Hpb.
        injection Hpb as <- <-. reflexivity. }
    destruct (process_buckets st _ bs) as [[rs nw2]|] eqn:Hrest;
      [simpl in Hrun|discriminate].
    injection Hrun as <- <-. eapply IH; eauto.
Qed.

Lemma process_buckets_reps st bucket_indices : forall nw reps nw',
  process_buckets st nw bucket_indices = Some (reps, nw') ->
  Forall2 (fun bucket r => (bucket = [] -> r = -1) /\
                           (forall f, bucket = [f] -> r = f))
          bucket_indices reps.
Proof.
  induction bucket_indices as [|b bs IH]; intros nw reps nw' Hrun.
  - injection Hrun as <- <-. constructor.
  - simpl in Hrun.
    destruct (process_bucket st nw b) as [[r nw1]|] eqn:Hb;
      [simpl in Hrun|discriminate].
    destruct (process_buckets st nw1 bs) as [[rs nw2]|] eqn:Hbs;
      [simpl in Hrun|discriminate].
    injection Hrun as <- <-. constructor; [|eapply IH; eauto].
    split.
    + intros ->. injection Hb as <- _. reflexivity.
    + intros f ->. unfold process_bucket in Hb.
      destruct (row_of st f) as [row|]; [simpl in Hb|discriminate].
      destruct (col_of st f) as [col|]; [simpl in Hb|discriminate].
      destruct (get2 _ row col) as [w|]; [simpl in Hb|discriminate].
      destruct (set2 nw row col w) as [nw0|]; [simpl in Hb|discriminate].
      injection Hb as <- _. reflexivity.
Qed.

(** C6: [select_representatives] keeps the shape of the weight matrix (and
    leaves the bias and the counters alone); a weight cell whose value
    differs afterwards is the position written for some bucket with several
    members; when every bucket is empty or a singleton the weights are
    unchanged. *)
Theorem C6_select_representatives_frame bucket_indices st reps st' :
  select_representatives bucket_indices st = Some (reps, st') ->
  same_shape (weight (params st')) (weight (params st)) /\
  bias (params st') = bias (params st) /\
  running_activations st' = running_activations st /\
  (forall i j,
      cell (weight (params st')) i j <> cell (weight (params st)) i j ->
      exists bucket, bucket ∈ bucket_indices /\ (2 <= length bucket)%nat /\
                     chosen_position st bucket = Some (i, j)) /\
  (Forall (fun bucket => (length bucket <= 1)%nat) bucket_indices ->
   weight (params st') = weight (params st)).
Proof.
  unfold select_representatives. intros Hsel.
  destruct (process_buckets st _ bucket_indices) as [[rs nw]|] eqn:Hrun;
    [simpl in Hsel|discriminate].
  injection Hsel as <- <-. simpl.
  destruct (process_buckets_frame _ _ _ _ _ (same_shape_refl _) Hrun)
    as [Hshape Hcells].
  split; [exact Hshape|]. split; [reflexivity|]. split; [reflexivity|]. split.
  - intros i j Hne. destruct (Hcells i j) as [Heq | [Heq | Hex]];
      [contradiction.. | exact Hex].
  - intros Hall. eapply process_buckets_no_merge; eauto.
Qed.

(** C7: the sequence returned by [select_representatives] has one entry per
    enumerated bucket, in the order of the enumeration: the sentinel -1 at
    the position of an empty bucket, the sole member at the position of a
    singleton bucket. *)
Theorem C7_representatives_positional bucket_indices st reps st' :
  select_representatives bucket_indices st = Some (reps, st') ->
  length reps = length bucket_indices /\
  forall i bucket,
    bucket_indices !! i = Some bucket ->
    (bucket = [] -> reps !! i = Some (-1)) /\
    (forall f, bucket = [f] -> reps !! i = Some f).
Proof.
  unfold select_representatives. intros Hsel.
  destruct (process_buckets st _ bucket_indices) as [[rs nw]|] eqn:Hrun;
    [simpl in Hsel|discriminate].
  injection Hsel as <- _.
  pose proof (process_buckets_reps _ _ _ _ _ Hrun) as Hall.
  split; [symmetry; exact (Forall2_length _ _ _ Hall)|].
  intros i bucket Hi.
  destruct (Forall2_lookup_l _ _ _ _ _ Hall Hi) as (r & Hr & Hempty & Hsingle).
  split.
  - intros Hb. rewrite Hr, (Hempty Hb). reflexivity.
  - intros f Hb. rewrite Hr, (Hsingle f Hb). reflexivity.
Qed.

Lemma same_shape_sym {A} (t u : Tensor2 A) : same_shape t u -> same_shape u t.
Proof. intros [H1 H2]. split; congruence. Qed.

Lemma weighted_sum_spec ws : forall acts,
  (sumQ (zip_with Qmult ws (inject_Z <$> acts))
   == sumQ ((fun m : Z * Q => inject_Z m.1 * m.2) <$> zip acts ws))%Q.
Proof.
  induction ws as [|w ws IH]; intros [|a acts]; simpl; try reflexivity.
  rewrite IH. rewrite (Qmult_comm w). reflexivity.
Qed.

(** The value computed by the source is the weighted mean of the
    specification. *)
Lemma representative_weight_spec ws acts :
  length ws = length acts ->
  (representative_weight ws acts == weighted_mean (zip acts ws))%Q.
Proof.
  intros Hlen. unfold representative_weight, weighted_mean.
  rewrite fst_zip by lia. case_decide; [reflexivity|].
  rewrite weighted_sum_spec. reflexivity.
Qed.

Lemma gather2_lookup {A} (t : Tensor2 A) rows cols vs k row col :
  gather2 t rows cols = Some vs ->
  rows !! k = Some row -> cols !! k = Some col ->
  exists v, vs !! k = Some v /\ get2 t row col = Some v.
Proof.
  unfold gather2. intros H Hr Hc. apply mapM_Some in H.
  assert (Hz : zip rows cols !! k = Some (row, col)).
  { rewrite lookup_zip_with, Hr. simpl. rewrite Hc. reflexivity. }
  destruct (Forall2_lookup_l _ _ _ _ _ H Hz) as (v & Hv & Hg). eauto.
Qed.

Lemma gather2_length {A} (t : Tensor2 A) rows cols vs :
  gather2 t rows cols = Some vs ->
  length vs = Nat.min (length rows) (length cols).
Proof.
  unfold gather2. intros H. apply length_mapM in H. rewrite <- H.
  apply length_zip_with.
Qed.

(** For a bucket with several members whose cells can be read, the
    iteration succeeds and the value written is the activation-weighted
    mean of the gathered weights, Σ(a_i·w_i) / Σ a_i, when the gathered
    counts do not sum to zero, and 0 when they do: a zero sum is no error
    and does not stop the pass.  The gathered cells are those the
    conversion of the source reads. *)
Lemma process_bucket_weighted_mean st nw bucket rows cols acts ws :
  (2 <= length bucket)%nat ->
  same_shape nw (weight (params st)) ->
  mapM (row_of st) bucket = Some rows ->
  mapM (col_of st) bucket = Some cols ->
  gather2 (running_activations st) rows cols = Some acts ->
  gather2 (weight (params st)) rows cols = Some ws ->
  exists row col nw' v,
    rows !! argmax acts = Some row /\ cols !! argmax acts = Some col /\
    process_bucket st nw bucket = Some (flat_of st row col, nw') /\
    get2 nw' row col = Some v /\
    (v == weighted_mean (zip acts ws))%Q /\
    (sumZ acts = 0 -> (v == 0)%Q) /\
    (sumZ acts <> 0 ->
     (v == sumQ ((fun m : Z * Q => inject_Z m.1 * m.2) <$> zip acts ws)
           / inject_Z (sumZ acts))%Q).
Proof.
  intros Hlen Hshape Hrows Hcols Hacts Hws.
  pose proof (length_mapM _ _ _ Hrows) as Lr.
  pose proof (length_mapM _ _ _ Hcols) as Lc.
  pose proof (gather2_length _ _ _ _ Hacts) as La.
  pose proof (gather2_length _ _ _ _ Hws) as Lw.
  assert (Hne : acts <> []) by (intros ->; simpl in La; lia).
  pose proof (argmax_lt acts Hne) as Hk.
  destruct (lookup_lt_is_Some_2 rows (argmax acts)) as [row Hrow]; [lia|].
  destruct (lookup_lt_is_Some_2 cols (argmax acts)) as [col Hcol]; [lia|].
  destruct (gather2_lookup _ _ _ _ _ _ _ Hws Hrow Hcol) as (w & _ & Hw).
  destruct (get2_cell _ _ _ _ Hw) as (i & j & Hi & Hj & Hc).
  rewrite <- (same_shape_nrows _ _ Hshape) in Hi.
  rewrite <- (proj1 Hshape) in Hj.
  destruct (set2_is_Some nw row col (representative_weight ws acts) i j Hi Hj)
    as (nw' & Hset & Hget).
  { eapply same_shape_cell_is_Some; [apply same_shape_sym, Hshape | eauto]. }
  exists row, col, nw', (representative_weight ws acts).
  split; [exact Hrow|]. split; [exact Hcol|]. split; [|split; [exact Hget|]].
  - assert (Hred : process_bucket st nw bucket = reduce_bucket st nw bucket).
    { destruct bucket as [|f [|g b]]; simpl in Hlen; [lia..|reflexivity]. }
    rewrite Hred. unfold reduce_bucket.
    rewrite Hrows. simpl. rewrite Hcols. simpl. rewrite Hacts. simpl.
    rewrite Hws. simpl. rewrite Hrow. simpl. rewrite Hcol. simpl.
    rewrite Hset. reflexivity.
  - pose proof (representative_weight_spec ws acts ltac:(lia)) as Hspec.
    split; [exact Hspec|]. unfold weighted_mean in Hspec.
    rewrite fst_zip in Hspec by lia.
    split; intros Hsum; rewrite Hspec; case_decide; try contradiction;
      reflexivity.
Qed.

(** ** prune_weights *)

Lemma norm_index_valid n r :
  - Z.of_nat n <= r < Z.of_nat n -> is_Some (norm_index n r).
Proof. intros H. unfold norm_index. repeat case_decide; eauto; lia. Qed.

Lemma norm_index_sentinel n :
  (1 <= n)%nat -> norm_index n (-1) = Some (pred n).
Proof.
  intros H. unfold norm_index. repeat case_decide; try lia.
  f_equal. lia.
Qed.

Lemma index_rows_length {A} (t : Tensor2 A) keep stop pw :
  index_rows t keep stop = Some pw ->
  t_nrows pw = length keep /\ t_cols pw = slice_len (t_cols t) stop.
Proof.
  unfold index_rows. intros H.
  destruct (mapM _ keep) as [rs|] eqn:Hrs; [simpl in H|discriminate].
  injection H as <-. unfold t_nrows. simpl. rewrite length_fmap.
  apply length_mapM in Hrs. auto.
Qed.

Lemma index1_length {A} (v : list A) keep pb :
  index1 v keep = Some pb -> length pb = length keep.
Proof. unfold index1. intros H. apply length_mapM in H. auto. Qed.

Lemma copy2_nrows {A} c (src w : Tensor2 A) :
  copy2 c src = Some w -> t_nrows w = t_nrows src /\ t_cols w = c.
Proof.
  unfold copy2, t_nrows. repeat case_decide; intros [= <-]; simpl.
  - auto.
  - rewrite length_fmap. auto.
Qed.

Lemma init_weights_spec rng l :
  t_nrows (weight (init_weights rng l)) = t_nrows (weight l) /\
  t_cols (weight (init_weights rng l)) = t_cols (weight l) /\
  bias (init_weights rng l) = replicate (length (bias l)) 0%Q /\
  forall i j x, cell (weight (init_weights rng l)) i j = Some x -> x = rng i j.
Proof.
  unfold init_weights, t_nrows; simpl. rewrite length_imap.
  split; [reflexivity|]. split; [reflexivity|]. split.
  - induction (bias l) as [|b bs IH]; simpl; [reflexivity|].
    f_equal. exact IH.
  - intros i j x. unfold cell. simpl. rewrite list_lookup_imap.
    destruct (t_rows (weight l) !! i) as [row|]; [simpl|discriminate].
    rewrite list_lookup_imap. destruct (row !! j); [simpl|discriminate].
    congruence.
Qed.

(** What [prune_weights] leaves behind, whenever it returns. *)
Lemma prune_weights_spec rng representatives input_dim st st' :
  prune_weights rng representatives input_dim st = Some st' ->
  t_nrows (weight (params st')) = length representatives /\
  t_cols (weight (params st')) = Z.to_nat input_dim /\
  bias (params st') = replicate (length representatives) 0%Q /\
  (forall i j x, cell (weight (params st')) i j = Some x -> x = rng i j) /\
  num_class st' = Z.of_nat (length representatives) /\
  D st' = input_dim /\
  running_activations st' = running_activations st.
Proof.
  unfold prune_weights, copied_layer, pruned_weights, pruned_biases.
  intros H.
  destruct (index_rows _ _ _) as [pw|] eqn:Hpw; [simpl in H|discriminate].
  destruct (index1 _ _) as [pb|] eqn:Hpb; [simpl in H|discriminate].
  case_decide; [|discriminate].
  destruct (copy2 _ pw) as [w|] eqn:Hw; [simpl in H|discriminate].
  injection H as <-.
  destruct (init_weights_spec rng (mkLinear w pb)) as (Hn & Hc & Hb & Hcells).
  destruct (copy2_nrows _ _ _ Hw) as [Hwn Hwc].
  destruct (index_rows_length _ _ _ _ Hpw) as [Hpn _].
  cbn [params num_class D running_activations].
  cbn [weight bias] in Hn, Hc, Hb.
  split; [congruence|]. split; [congruence|].
  split; [rewrite Hb, (index1_length _ _ _ Hpb); reflexivity|].
  split; [exact Hcells|]. auto.
Qed.

(** C1, as the code has it: [prune_weights] filters nothing.  Whenever it
    returns, the new weight matrix and bias have exactly as many rows as
    the representative sequence has entries, sentinel entries included;
    this is the count of non-sentinel entries only when the sequence holds
    no sentinel. *)
Theorem C1_prune_keeps_every_entry rng representatives input_dim st st' :
  prune_weights rng representatives input_dim st = Some st' ->
  t_nrows (weight (params st')) = length representatives /\
  length (bias (params st')) = length representatives /\
  (count_valid representatives <= length representatives)%nat /\
  (t_nrows (weight (params st')) = count_valid representatives <->
   sentinel ∉ representatives).
Proof.
  intros H. destruct (prune_weights_spec _ _ _ _ _ H) as (Hn & _ & Hb & _).
  rewrite Hn, Hb, length_replicate. unfold count_valid.
  split; [reflexivity|]. split; [reflexivity|].
  split; [apply length_filter|].
  clear. induction representatives as [|r rs IH].
  - simpl. split; [intros _; apply not_elem_of_nil | reflexivity].
  - rewrite filter_cons. pose proof (length_filter (fun r => r <> sentinel) rs).
    case_decide as Hr; simpl.
    + rewrite not_elem_of_cons. split.
      * intros Hlen. split; [congruence|]. apply IH. lia.
      * intros [_ Hrs]. f_equal. apply IH, Hrs.
    + split; [lia|]. intros Hnot. exfalso. apply Hnot.
      assert (r = sentinel) as -> by (destruct (decide (r = sentinel)); tauto).
      apply list_elem_of_here.
Qed.

Lemma C1_witness :
  exists st',
    prune_weights no_rng [0; 2] 2 trained_layer = Some st' /\
    t_nrows (weight (params st')) = 2%nat.
Proof.
  eexists. split; [vm_compute; reflexivity|].
  refine (proj1 (C1_prune_keeps_every_entry no_rng [0; 2] 2 trained_layer _ _)).
  vm_compute. reflexivity.
Defined.

(** C1 as stated fails: with one sentinel among two entries the pruned
    matrix has two rows, not one. *)
Lemma C1_counterexample :
  ~ (forall rng representatives input_dim st st',
        prune_weights rng representatives input_dim st = Some st' ->
        t_nrows (weight (params st')) = count_valid representatives).
Proof.
  intros H.
  specialize (H no_rng [0; -1] 2 trained_layer _ eq_refl).
  vm_compute in H. discriminate.
Qed.

(** C8, as the code has it: after pruning, the weight matrix and the bias
    are replaced by versions with one row per representative, and
    [num_class] and [D] follow; [running_activations] is left as it was,
    with its dimensions from before the pruning. *)
Theorem C8_prune_replaces_layer_only rng representatives input_dim st st' :
  prune_weights rng representatives input_dim st = Some st' ->
  shape (weight (params st')) = (length representatives, Z.to_nat input_dim) /\
  length (bias (params st')) = length representatives /\
  num_class st' = Z.of_nat (length representatives) /\
  D st' = input_dim /\
  running_activations st' = running_activations st /\
  shape (running_activations st') = shape (running_activations st).
Proof.
  intros H.
  destruct (prune_weights_spec _ _ _ _ _ H) as (Hn & Hc & Hb & _ & Hnc & HD & Hra).
  unfold shape. rewrite Hn, Hc, Hb, length_replicate, Hra.
  repeat split; assumption.
Qed.

Lemma C8_witness :
  exists st',
    prune_weights no_rng [1] 2 trained_layer = Some st' /\
    running_activations st' = running_activations trained_layer.
Proof.
  eexists. split; [vm_compute; reflexivity|].
  refine (proj1 (proj2 (proj2 (proj2 (proj2
    (C8_prune_replaces_layer_only no_rng [1] 2 trained_layer _ _)))))).
  vm_compute. reflexivity.
Defined.

(** C8 as stated fails: pruning a layer of three units down to one leaves
    the counters with the dimensions they had. *)
Lemma C8_counterexample :
  ~ (forall rng representatives input_dim st st',
        prune_weights rng representatives input_dim st = Some st' ->
        (length representatives < t_nrows (weight (params st)))%nat ->
        shape (running_activations st') <> shape (running_activations st)).
Proof.
  intros H.
  apply (H no_rng [1] 2 trained_layer _ eq_refl); vm_compute; [lia|reflexivity].
Qed.

Lemma mapM_index_is_Some {A} (l : list A) keep :
  Forall (fun r => - Z.of_nat (length l) <= r < Z.of_nat (length l)) keep ->
  is_Some (mapM (fun k => i ← norm_index (length l) k; l !! i) keep).
Proof.
  intros Hall. apply mapM_is_Some. eapply Forall_impl; [exact Hall|].
  intros r Hr. simpl.
  destruct (norm_index_valid _ _ Hr) as [i Hi]. rewrite Hi. simpl.
  apply lookup_lt_is_Some. eapply norm_index_lt; eauto.
Qed.

Lemma mapM_index_sentinel {A} (l : list A) keep vs k x :
  mapM (fun k => i ← norm_index (length l) k; l !! i) keep = Some vs ->
  keep !! k = Some sentinel -> last l = Some x -> vs !! k = Some x.
Proof.
  intros Hm Hk Hlast. apply mapM_Some in Hm.
  destruct (Forall2_lookup_l _ _ _ _ _ Hm Hk) as (v & Hv & Hget).
  rewrite Hv. rewrite last_lookup in Hlast.
  rewrite norm_index_sentinel in Hget.
  - simpl in Hget. congruence.
  - apply lookup_lt_Some in Hlast. lia.
Qed.

(** C9: when the representative sequence holds the sentinel -1 (and its
    other entries are valid row indices of a layer with at least one unit),
    [prune_weights] does not raise and drops nothing: the slices hold, at
    the position of the sentinel, the last row of the weight matrix (cut to
    [input_dim] columns) and the last bias, and the new layer has one row per
    entry of the sequence. *)
Theorem C9_sentinel_selects_last_row rng representatives input_dim st k
    last_row last_bias :
  representatives !! k = Some sentinel ->
  last (t_rows (weight (params st))) = Some last_row ->
  last (bias (params st)) = Some last_bias ->
  length (bias (params st)) = t_nrows (weight (params st)) ->
  Forall (fun r => - Z.of_nat (t_nrows (weight (params st))) <= r
                   < Z.of_nat (t_nrows (weight (params st))))
         representatives ->
  0 <= input_dim <= Z.of_nat (t_cols (weight (params st))) ->
  exists pw pb st',
    pruned_weights st representatives input_dim = Some pw /\
    pruned_biases st representatives = Some pb /\
    prune_weights rng representatives input_dim st = Some st' /\
    t_rows pw !! k = Some (take (Z.to_nat input_dim) last_row) /\
    pb !! k = Some last_bias /\
    t_nrows pw = length representatives /\
    t_nrows (weight (params st')) = length representatives /\
    length (bias (params st')) = length representatives.
Proof.
  intros Hk Hlast Hlastb Hbias Hall Hdim.
  assert (Hslice : slice_len (t_cols (weight (params st))) input_dim
                   = Z.to_nat input_dim).
  { unfold slice_len. case_decide; lia. }
  destruct (mapM_index_is_Some (t_rows (weight (params st))) representatives
              Hall) as [rs Hrs].
  destruct (mapM_index_is_Some (bias (params st)) representatives) as [pb Hpb].
  { rewrite Hbias. exact Hall. }
  assert (Hpw : pruned_weights st representatives input_dim
                = Some (T2 (Z.to_nat input_dim)
                           (take (Z.to_nat input_dim) <$> rs))).
  { unfold pruned_weights, index_rows, t_nrows. rewrite Hrs. simpl.
    rewrite Hslice. reflexivity. }
  assert (Hprune : is_Some (prune_weights rng representatives input_dim st)).
  { unfold prune_weights, copied_layer. rewrite Hpw. simpl.
    unfold pruned_biases, index1. rewrite Hpb. simpl.
    case_decide; [|lia]. unfold copy2. simpl.
    case_decide; [|congruence]. simpl. eauto. }
  destruct Hprune as [st' Hst'].
  destruct (prune_weights_spec _ _ _ _ _ Hst') as (Hn & _ & Hb & _).
  eexists _, pb, st'. split; [exact Hpw|]. split; [exact Hpb|].
  split; [exact Hst'|]. simpl. split; [|split; [|split; [|split]]].
  - rewrite list_lookup_fmap,
      (mapM_index_sentinel _ _ _ _ _ Hrs Hk Hlast). reflexivity.
  - exact (mapM_index_sentinel _ _ _ _ _ Hpb Hk Hlastb).
  - unfold t_nrows. simpl. rewrite length_fmap.
    symmetry. exact (length_mapM _ _ _ Hrs).
  - exact Hn.
  - rewrite Hb. apply length_replicate.
Qed.

Lemma C9_witness :
  exists pw pb st',
    pruned_weights trained_layer [0; -1] 2 = Some pw /\
    pruned_biases trained_layer [0; -1] = Some pb /\
    prune_weights no_rng [0; -1] 2 trained_layer = Some st' /\
    t_rows pw !! 1%nat = Some (take 2 [5; 6]%Q) /\
    pb !! 1%nat = Some 9%Q /\
    t_nrows pw = 2%nat /\
    t_nrows (weight (params st')) = 2%nat /\
    length (bias (params st')) = 2%nat.
Proof.
  apply (C9_sentinel_selects_last_row no_rng [0; -1] 2 trained_layer 1
           [5; 6]%Q 9%Q); try reflexivity.
  - repeat constructor; vm_compute; congruence.
  - vm_compute. split; congruence.
Defined.

(** C2 does not hold of the code: the slices are copied into the new layer,
    and [init_weights] then overwrites every copied value.  Pruning the
    trained layer down to its unit 1 copies the row (3, 4) and the bias 8,
    and leaves the fresh draws and the bias 0. *)
Theorem C2_copied_values_are_reinitialised (rng : nat -> nat -> Q) :
  exists new_layer st',
    copied_layer trained_layer [1] 2 = Some new_layer /\
    t_rows (weight new_layer) = [[3; 4]]%Q /\
    bias new_layer = [8]%Q /\
    prune_weights rng [1] 2 trained_layer = Some st' /\
    t_rows (weight (params st')) = [[rng 0 0; rng 0 1]]%nat /\
    bias (params st') = [0]%Q.
Proof.
  eexists _, _. split; [reflexivity|]. split; [reflexivity|].
  split; [reflexivity|]. split; [reflexivity|]. split; reflexivity.
Qed.

(** On a layer without units the sentinel is no valid index: indexing
    raises. *)
Lemma sentinel_on_empty_layer_raises rng input_dim :
  prune_weights rng [sentinel] input_dim empty_layer = None.
Proof. reflexivity. Qed.

(** ** The examples of the specification *)

Example weighted_mean_example :
  (weighted_mean [(2%Z, 1); (6%Z, 3)] == 5 # 2)%Q.
Proof. reflexivity. Qed.

Example weighted_mean_zero_sum :
  (weighted_mean [(0%Z, 5); (0%Z, -2)] == 0)%Q.
Proof. reflexivity. Qed.

Lemma process_bucket_weighted_mean_example :
  exists row col nw' v,
    [0; 0] !! argmax [2; 6] = Some row /\ [0; 1] !! argmax [2; 6] = Some col /\
    process_bucket square_layer (weight (params square_layer)) [0; 1]
    = Some (flat_of square_layer row col, nw') /\
    get2 nw' row col = Some v /\
    (v == weighted_mean (zip [2; 6]%Z [1; 3]))%Q /\
    (sumZ [2; 6] = 0 -> (v == 0)%Q) /\
    (sumZ [2; 6] <> 0 ->
     (v == sumQ ((fun m : Z * Q => inject_Z m.1 * m.2)
                   <$> zip [2; 6]%Z [1; 3])
           / inject_Z (sumZ [2; 6]%Z))%Q).
Proof.
  apply (process_bucket_weighted_mean square_layer
           (weight (params square_layer))
           [0; 1] [0; 0] [0; 1] [2; 6] [1; 3]%Q);
    try reflexivity; solve [simpl; lia | apply same_shape_refl].
Defined.

Lemma C6_witness :
  exists reps st',
    select_representatives [[]; [0]; [1; 2]] trained_layer = Some (reps, st') /\
    same_shape (weight (params st')) (weight (params trained_layer)).
Proof.
  eexists _, _. split; [vm_compute; reflexivity|].
  refine (proj1 (C6_select_representatives_frame
                   [[]; [0]; [1; 2]] trained_layer _ _ _)).
  vm_compute. reflexivity.
Defined.

Lemma C7_witness :
  exists reps st',
    select_representatives [[]; [0]; [1; 2]] trained_layer = Some (reps, st') /\
    length reps = 3%nat.
Proof.
  eexists _, _. split; [vm_compute; reflexivity|].
  refine (proj1 (C7_representatives_positional
                   [[]; [0]; [1; 2]] trained_layer _ _ _)).
  vm_compute. reflexivity.
Defined.

(** ** The conversion between indices and positions *)

(** What the conversion to a (row, column) pair and back computes. *)
Lemma flat_of_row_col st f row col :
  row_of st f = Some row -> col_of st f = Some col ->
  flat_of st row col = f - f `mod` num_class st + f `mod` D st.
Proof.
  unfold row_of, col_of, floordiv, pymod, flat_of.
  repeat case_decide; try discriminate. intros [= <-] [= <-].
  pose proof (Z.div_mod f (num_class st) ltac:(assumption)). lia.
Qed.

(** X10: the round trip recovers the index exactly when its remainders by
    the two divisors agree. *)
Lemma flat_of_round_trip st f row col :
  row_of st f = Some row -> col_of st f = Some col ->
  (flat_of st row col = f <-> f `mod` num_class st = f `mod` D st).
Proof.
  intros Hr Hc. rewrite (flat_of_row_col _ _ _ _ Hr Hc). lia.
Qed.

(** C5 does not hold of the code: the row is obtained by dividing by
    [num_class], the column by reducing modulo [D], and the index is
    rebuilt with [num_class].  On the layer with 3 units and 2 inputs the
    member 2 is sent to position (0, 0), which gives back the index 0. *)
Theorem C5_two_divisors :
  num_class trained_layer = 3 /\ D trained_layer = 2 /\
  row_of trained_layer 2 = Some 0 /\ col_of trained_layer 2 = Some 0 /\
  flat_of trained_layer 0 0 = 0 /\ flat_of trained_layer 0 0 <> 2.
Proof. repeat split; try reflexivity. vm_compute. discriminate. Qed.

(** C4 does not hold of the code: for the bucket {1, 2} of the trained
    layer the gathered counts are 0 and 2, so the most activated member is
    the index 2, at position 1 of the bucket; the representative returned
    is 0, which is not a member of the bucket (it is the representative of
    the singleton bucket {0} as well). *)
Theorem C4_representative_is_not_a_member :
  exists st',
    select_representatives [[0]; [1; 2]] trained_layer = Some ([0; 0], st') /\
    mapM (row_of trained_layer) [1; 2] = Some [0; 0] /\
    mapM (col_of trained_layer) [1; 2] = Some [1; 0] /\
    gather2 (running_activations trained_layer) [0; 0] [1; 0] = Some [0; 2] /\
    argmax [0; 2] = 1%nat /\
    [1; 2] !! 1%nat = Some 2 /\
    0 ∉ [1; 2].
Proof.
  eexists. split; [vm_compute; reflexivity|].
  repeat split; try reflexivity.
  rewrite !not_elem_of_cons. repeat split; try discriminate.
  apply not_elem_of_nil.
Qed.


(** * Further properties of the layer *)

(** ** Construction *)

Lemma init_weights_wf rng l :
  t_wf (weight l) -> t_wf (weight (init_weights rng l)).
Proof.
  unfold t_wf, init_weights. simpl. intros Hwf.
  apply Forall_lookup. intros i row Hrow.
  rewrite list_lookup_imap in Hrow.
  destruct (t_rows (weight l) !! i) as [r|] eqn:Hr; [|discriminate].
  injection Hrow as <-. rewrite length_imap.
  exact (proj1 (Forall_lookup _ _) Hwf i r Hr).
Qed.

Lemma new_linear_wf fresh n m : t_wf (weight (new_linear fresh n m)).
Proof.
  unfold t_wf, new_linear. simpl. apply Forall_fmap, Forall_forall.
  intros i _. simpl. rewrite length_fmap. apply length_seq.
Qed.

Lemma init_inv rng input_dim output_dim K0 st :
  init rng input_dim output_dim K0 = Some st ->
  num_class st = output_dim /\ D st = input_dim /\ lsh st = false /\
  shape (weight (params st)) = (Z.to_nat output_dim, Z.to_nat input_dim) /\
  t_wf (weight (params st)) /\
  (forall r c, (r < Z.to_nat output_dim)%nat -> (c < Z.to_nat input_dim)%nat ->
               cell (weight (params st)) r c = Some (rng r c)) /\
  bias (params st) = replicate (Z.to_nat output_dim) 0%Q /\
  running_activations st
  = zeros (Z.to_nat input_dim) (Z.to_nat output_dim) /\
  shape (running_activations st) = (Z.to_nat input_dim, Z.to_nat output_dim).
Proof.
  unfold init. case_decide; [|discriminate]. intros [= <-].
  cbn [num_class D lsh params running_activations].
  split; [reflexivity|]. split; [reflexivity|]. split; [reflexivity|].
  destruct (init_weights_spec rng
              (new_linear rng (Z.to_nat input_dim) (Z.to_nat output_dim)))
    as (Hn & Hc & Hb & Hcells).
  split; [|split; [|split; [|split; [|split]]]].
  - unfold shape. rewrite Hn, Hc. unfold t_nrows. simpl.
    rewrite length_fmap, length_seq. reflexivity.
  - apply init_weights_wf, new_linear_wf.
  - intros r c Hr Hc'. unfold cell, init_weights, new_linear. simpl.
    rewrite list_lookup_imap, list_lookup_fmap, lookup_seq_lt by lia.
    simpl. rewrite list_lookup_imap, list_lookup_fmap, lookup_seq_lt by lia.
    reflexivity.
  - rewrite Hb. simpl. rewrite length_replicate. reflexivity.
  - reflexivity.
  - unfold shape, zeros, t_nrows. simpl. rewrite length_replicate.
    reflexivity.
Qed.

(** X1: [__init__] raises when a dimension is negative.  Whenever it
    returns, the weight matrix has shape (output_dim, input_dim) and holds
    the draws of the generator, the bias is zero, the counters are a zero
    tensor of the transposed shape (input_dim, output_dim), and [num_class]
    and [D] are the two dimensions. *)
Theorem init_spec rng input_dim output_dim K0 :
  (input_dim < 0 \/ output_dim < 0 -> init rng input_dim output_dim K0 = None) /\
  forall st,
    init rng input_dim output_dim K0 = Some st ->
    num_class st = output_dim /\ D st = input_dim /\ lsh st = false /\
    shape (weight (params st)) = (Z.to_nat output_dim, Z.to_nat input_dim) /\
    t_wf (weight (params st)) /\
    (forall r c, (r < Z.to_nat output_dim)%nat -> (c < Z.to_nat input_dim)%nat ->
                 cell (weight (params st)) r c = Some (rng r c)) /\
    bias (params st) = replicate (Z.to_nat output_dim) 0%Q /\
    running_activations st
    = zeros (Z.to_nat input_dim) (Z.to_nat output_dim) /\
    shape (running_activations st) = (Z.to_nat input_dim, Z.to_nat output_dim).
Proof.
  split.
  - intros Hneg. unfold init. case_decide; [lia | reflexivity].
  - intros st. apply init_inv.
Qed.

Lemma init_spec_witness :
  exists st,
    init demo_rng 2 3 4 = Some st /\
    shape (weight (params st)) = (3%nat, 2%nat) /\
    shape (running_activations st) = (2%nat, 3%nat).
Proof.
  eexists. split; [reflexivity|].
  pose proof (proj2 (init_spec demo_rng 2 3 4) _ eq_refl) as H.
  split; [apply H | apply H].
Defined.

(** ** The invariant of the layer *)

Lemma same_shape_wf {A} (t u : Tensor2 A) :
  same_shape t u -> t_wf u -> t_wf t.
Proof.
  intros [Hc Hl] Hwf. unfold t_wf in *. apply Forall_lookup.
  intros i r Hr.
  assert (Hi : (length <$> t_rows u) !! i = Some (length r)).
  { rewrite <- Hl, list_lookup_fmap, Hr. reflexivity. }
  rewrite list_lookup_fmap in Hi.
  destruct (t_rows u !! i) as [s|] eqn:Hs; [simpl in Hi|discriminate].
  injection Hi as Hi. rewrite <- Hi, Hc.
  exact (proj1 (Forall_lookup _ _) Hwf i s Hs).
Qed.

Lemma slice_len_le n stop : (slice_len n stop <= n)%nat.
Proof. unfold slice_len. case_decide; lia. Qed.

Lemma index_rows_wf {A} (t : Tensor2 A) keep stop pw :
  t_wf t -> index_rows t keep stop = Some pw -> t_wf pw.
Proof.
  unfold index_rows. intros Hwf H.
  destruct (mapM _ keep) as [rs|] eqn:Hrs; [simpl in H|discriminate].
  injection H as <-. unfold t_wf. simpl.
  apply Forall_fmap, Forall_forall. intros r Hr. simpl.
  apply mapM_Some in Hrs.
  apply list_elem_of_lookup in Hr as [k Hk].
  destruct (Forall2_lookup_r _ _ _ _ _ Hrs Hk) as (x & _ & Hx).
  destruct (norm_index (t_nrows t) x) as [i|]; [simpl in Hx|discriminate].
  pose proof (proj1 (Forall_lookup _ _) Hwf i r Hx) as Hlen. simpl in Hlen.
  rewrite length_take, Hlen. pose proof (slice_len_le (t_cols t) stop). lia.
Qed.

Lemma copy2_wf {A} c (src w : Tensor2 A) :
  t_wf src -> copy2 c src = Some w -> t_wf w.
Proof.
  unfold copy2, t_wf. intros Hwf. repeat case_decide; intros [= <-]; simpl.
  - congruence.
  - apply Forall_fmap. eapply Forall_impl; [exact Hwf|]. simpl.
    intros [|x r] Hr; simpl in *; [lia|]. apply length_replicate.
Qed.

Lemma prune_weights_wf rng representatives input_dim st st' :
  t_wf (weight (params st)) ->
  prune_weights rng representatives input_dim st = Some st' ->
  0 <= input_dim /\ t_wf (weight (params st')).
Proof.
  unfold prune_weights, copied_layer, pruned_weights, pruned_biases.
  intros Hwf H.
  destruct (index_rows _ _ _) as [pw|] eqn:Hpw; [simpl in H|discriminate].
  destruct (index1 _ _) as [pb|] eqn:Hpb; [simpl in H|discriminate].
  case_decide; [|discriminate].
  destruct (copy2 _ pw) as [w|] eqn:Hw; [simpl in H|discriminate].
  injection H as <-. split; [assumption|]. cbn [params].
  apply init_weights_wf. cbn [weight].
  eapply copy2_wf; [|exact Hw]. eapply index_rows_wf; eauto.
Qed.

(** X2: as long as no call raises, whatever sequence of
    [accumulate_metrics], [select_representatives] and [prune_weights]
    calls follows [__init__], the weight matrix stays rectangular with
    [num_class] rows and [D] columns and one bias per row. *)
Theorem layer_ok_invariant st : reachable_any st -> layer_ok st.
Proof.
  induction 1 as [rng i o k st Hinit
                 | a st st' _ IH Hacc
                 | bs st reps st' _ IH Hsel
                 | rng reps d st st' _ IH Hprune].
  - destruct (init_inv rng i o k st Hinit)
      as (Hnc & HD & _ & Hshape & Hwf & _ & Hb & _).
    assert (0 <= i /\ 0 <= o) as [Hi Ho].
    { unfold init in Hinit. case_decide; [assumption|discriminate]. }
    injection Hshape as Hn Hc. unfold layer_ok.
    rewrite Hnc, HD, Hb, length_replicate. repeat split; auto.
  - unfold accumulate_metrics in Hacc.
    destruct (add_broadcast0 _ _); [simpl in Hacc|discriminate].
    injection Hacc as <-. exact IH.
  - unfold select_representatives in Hsel.
    destruct (process_buckets st _ bs) as [[rs nw]|] eqn:Hrun;
      [simpl in Hsel|discriminate].
    injection Hsel as _ <-.
    destruct (process_buckets_frame _ _ _ _ _ (same_shape_refl _) Hrun)
      as [Hshape _].
    destruct IH as (H1 & H2 & H3 & H4 & H5 & H6). unfold layer_ok. simpl.
    rewrite (same_shape_nrows _ _ Hshape), (proj1 Hshape).
    repeat split; auto. eapply same_shape_wf; eauto.
  - destruct IH as (H1 & H2 & H3 & H4 & H5 & H6).
    destruct (prune_weights_wf _ _ _ _ _ H3 Hprune) as [Hd Hwf].
    destruct (prune_weights_spec _ _ _ _ _ Hprune)
      as (Hn & Hc & Hb & _ & Hnc & HD & _).
    unfold layer_ok. rewrite Hn, Hc, Hb, Hnc, HD, length_replicate.
    repeat split; auto; lia.
Qed.

Lemma layer_ok_invariant_witness :
  exists st,
    ((init demo_rng 2 3 4 ≫= accumulate_metrics sample_batch)
       ≫= update_weights demo_rng [[0]; [1; 2]] 2) = Some st /\
    layer_ok st.
Proof.
  eexists. split; [vm_compute; reflexivity|].
  apply layer_ok_invariant.
  eapply any_prune with (rng := demo_rng) (representatives := [0; 0])
                        (input_dim := 2);
    [eapply any_select with (bucket_indices := [[0]; [1; 2]]);
       [eapply any_accumulate with (activations := sample_batch);
          [eapply any_init with (rng := demo_rng) (input_dim := 2)
                                (output_dim := 3) (K0 := 4); reflexivity
          | vm_compute; reflexivity]
       | vm_compute; reflexivity]
    | vm_compute; reflexivity].
Defined.

(** ** Counting activations *)

Lemma add_broadcast0_None t v :
  add_broadcast0 t v = None <-> length v <> t_cols t /\ length v <> 1%nat.
Proof.
  unfold add_broadcast0. destruct v as [|x [|y v]];
    case_decide; simpl in *; split;
    try discriminate; try (intros [? ?]; lia); try (intros _; split; lia).
Qed.

Lemma accumulate_metrics_None activations st :
  accumulate_metrics activations st = None <->
  add_broadcast0 (running_activations st)
                 (sum_dim0 (activation_mask activations)) = None.
Proof.
  unfold accumulate_metrics. destruct (add_broadcast0 _ _); simpl;
    split; intros; try discriminate; reflexivity.
Qed.

(** X3: on a rectangular batch [accumulate_metrics] raises exactly when the
    batch has neither as many columns as the counters nor a single
    column. *)
Theorem accumulate_metrics_raises activations st :
  t_wf activations ->
  (accumulate_metrics activations st = None <->
   t_cols activations <> t_cols (running_activations st) /\
   t_cols activations <> 1%nat).
Proof.
  intros Hwf. rewrite accumulate_metrics_None, add_broadcast0_None.
  rewrite (sum_dim0_mask_length _ Hwf). reflexivity.
Qed.

Lemma accumulate_metrics_raises_witness :
  accumulate_metrics (T2 2 [[1; 1]]%Q) trained_layer = None.
Proof.
  apply (accumulate_metrics_raises (T2 2 [[1; 1]]%Q) trained_layer).
  - repeat constructor.
  - vm_compute. split; congruence.
Defined.

Lemma zip_add_assoc (a b c : list Z) :
  zip_with Z.add (zip_with Z.add a b) c = zip_with Z.add a (zip_with Z.add b c).
Proof.
  revert b c. induction a as [|x a IH]; intros [|y b] [|z c]; simpl;
    try reflexivity.
  f_equal; [lia | apply IH].
Qed.

Lemma zip_add_zeros n (v : list Z) :
  (length v <= n)%nat -> zip_with Z.add (replicate n 0) v = v.
Proof.
  revert v. induction n as [|n IH]; intros [|x v] Hl; simpl in *;
    try reflexivity; [lia|].
  f_equal. apply IH. lia.
Qed.

Lemma sum_dim0_mask_app c rows1 rows2 :
  t_wf (T2 c rows2) ->
  sum_dim0 (activation_mask (T2 c (rows1 ++ rows2)))
  = zip_with Z.add (sum_dim0 (activation_mask (T2 c rows1)))
                   (sum_dim0 (activation_mask (T2 c rows2))).
Proof.
  intros Hwf. pose proof (sum_dim0_mask_length _ Hwf) as Hlen.
  unfold sum_dim0, activation_mask in *. simpl in *.
  induction rows1 as [|r rows1 IH]; csimpl.
  - symmetry. apply zip_add_zeros. lia.
  - rewrite IH. symmetry. apply zip_add_assoc.
Qed.

(** X4: as long as the counts stay within the integers that a
    single-precision float holds exactly (every counter, increased by the
    number of samples, is at most 2^24), counting is additive over the
    samples of a batch: accumulating a batch made of two parts is
    accumulating one part and then the other (for parts with one column
    per counter column). *)
Theorem accumulate_metrics_app c rows1 rows2 st :
  t_wf (T2 c rows1) -> t_wf (T2 c rows2) ->
  c = t_cols (running_activations st) ->
  Forall (Forall (fun x => 0 <= x /\
                           x + Z.of_nat (length rows1 + length rows2)
                           <= 2 ^ 24))
         (t_rows (running_activations st)) ->
  accumulate_metrics (T2 c (rows1 ++ rows2)) st
  = accumulate_metrics (T2 c rows1) st ≫= accumulate_metrics (T2 c rows2).
Proof.
  intros Hwf1 Hwf2 Hc _.
  assert (Hwf : t_wf (T2 c (rows1 ++ rows2))).
  { unfold t_wf in *. simpl in *. apply Forall_app. auto. }
  pose proof (sum_dim0_mask_length _ Hwf) as L.
  pose proof (sum_dim0_mask_length _ Hwf1) as L1.
  pose proof (sum_dim0_mask_length _ Hwf2) as L2.
  simpl in L, L1, L2.
  unfold accumulate_metrics, add_broadcast0.
  rewrite (sum_dim0_mask_app c rows1 rows2 Hwf2) in *.
  set (v1 := sum_dim0 (activation_mask (T2 c rows1))) in *.
  set (v2 := sum_dim0 (activation_mask (T2 c rows2))) in *.
  rewrite decide_True by congruence. rewrite decide_True by congruence.
  simpl. rewrite decide_True by congruence. simpl.
  f_equal. f_equal. f_equal. rewrite <- list_fmap_compose.
  apply list_fmap_ext. intros _ row _. simpl. symmetry. apply zip_add_assoc.
Qed.

Lemma accumulate_metrics_app_witness :
  accumulate_metrics (T2 3 ([[1; -1; 2]] ++ [[3; 0; 1]])%Q) trained_layer
  = accumulate_metrics (T2 3 [[1; -1; 2]]%Q) trained_layer
      ≫= accumulate_metrics (T2 3 [[3; 0; 1]]%Q).
Proof.
  apply (accumulate_metrics_app 3 [[1; -1; 2]]%Q [[3; 0; 1]]%Q trained_layer);
    [apply Forall_cons_2; [reflexivity | apply Forall_nil_2]
    | apply Forall_cons_2; [reflexivity | apply Forall_nil_2]
    | reflexivity
    | repeat (apply Forall_cons_2 || apply Forall_nil_2);
      vm_compute; split; congruence].
Defined.

(** ** forward and the counters *)

Lemma forward_inv x st y :
  forward x st = Some y ->
  t_cols x = t_cols (weight (params st)) /\
  t_nrows y = t_nrows x /\ t_cols y = t_nrows (weight (params st)) /\
  (length (bias (params st)) = t_nrows (weight (params st)) -> t_wf y).
Proof.
  unfold forward, linear_forward. case_decide; [|discriminate].
  intros [= <-]. unfold t_nrows, t_wf. simpl.
  rewrite length_fmap. repeat split; auto.
  intros Hb. apply Forall_fmap, Forall_forall. intros xr _. simpl.
  rewrite length_zip_with, length_fmap. lia.
Qed.

Lemma forward_is_Some x st :
  t_cols x = t_cols (weight (params st)) -> is_Some (forward x st).
Proof.
  intros H. unfold forward, linear_forward. rewrite decide_True by exact H.
  eauto.
Qed.

(** In a state reached by counting, the counters have one column per unit
    of the layer. *)
Lemma reachable_counts_units st :
  reachable st ->
  t_cols (running_activations st) = t_nrows (weight (params st)) /\
  length (bias (params st)) = t_nrows (weight (params st)).
Proof.
  induction 1 as [rng i o k st Hinit | a st st' _ IH Hacc].
  - destruct (init_inv rng i o k st Hinit)
      as (_ & _ & _ & Hshape & _ & _ & Hb & _ & Hra).
    injection Hshape as Hn _. injection Hra as _ Hc.
    rewrite Hc, Hn, Hb, length_replicate. auto.
  - unfold accumulate_metrics in Hacc.
    destruct (add_broadcast0 _ _) as [ra|] eqn:Hadd; [simpl in Hacc|discriminate].
    injection Hacc as <-. simpl.
    assert (t_cols ra = t_cols (running_activations st)) as ->; [|exact IH].
    unfold add_broadcast0 in Hadd. case_decide.
    + injection Hadd as <-. reflexivity.
    + destruct (sum_dim0 _) as [|? [|? ?]]; try discriminate.
      injection Hadd as <-. reflexivity.
Qed.

(** X5: before any pruning, the counting loop does not raise: in a state
    reached from [__init__] by [accumulate_metrics] calls, [forward]
    accepts every batch with [in_features] columns, its output has one row
    per sample and one column per counter column, and [accumulate_metrics]
    accepts that output. *)
Theorem forward_then_accumulate x st :
  reachable st ->
  t_cols x = t_cols (weight (params st)) ->
  exists y st',
    forward x st = Some y /\
    shape y = (t_nrows x, t_cols (running_activations st)) /\
    accumulate_metrics y st = Some st'.
Proof.
  intros Hreach Hx.
  destruct (reachable_counts_units _ Hreach) as [Hc Hb].
  destruct (forward_is_Some x st Hx) as [y Hy].
  destruct (forward_inv _ _ _ Hy) as (_ & Hn & Hyc & Hwf).
  specialize (Hwf Hb).
  destruct (accumulate_metrics y st) as [st'|] eqn:Hacc.
  - exists y, st'. unfold shape. rewrite Hn, Hyc, Hc. auto.
  - exfalso. apply accumulate_metrics_None, add_broadcast0_None in Hacc.
    rewrite (sum_dim0_mask_length _ Hwf) in Hacc. lia.
Qed.

Lemma forward_then_accumulate_witness :
  exists st y st',
    init demo_rng 2 3 4 = Some st /\
    forward (T2 2 [[1; 2]; [3; -4]; [0; 1]]%Q) st = Some y /\
    shape y = (3%nat, 3%nat) /\
    accumulate_metrics y st = Some st'.
Proof.
  eexists. 
  destruct (forward_then_accumulate (T2 2 [[1; 2]; [3; -4]; [0; 1]]%Q)
              (mkHashedFC
                 (init_weights demo_rng (new_linear demo_rng 2 3))
                 4 2 3 false (zeros 2 3) false))
    as (y & st' & Hy & Hs & Hacc).
  - eapply reach_init with (rng := demo_rng) (input_dim := 2)
                           (output_dim := 3) (K0 := 4). reflexivity.
  - reflexivity.
  - exists y, st'. split; [reflexivity|]. split; [exact Hy|].
    split; [exact Hs | exact Hacc].
Defined.

(** X6: after a pruning that changes the number of units (to anything but
    one), the counting loop raises: [forward] still runs on a batch with
    [input_dim] columns, but its output has one column per representative
    while the counters kept their old width, so [accumulate_metrics]
    rejects it. *)
Theorem prune_then_accumulate_raises rng representatives input_dim st st' x :
  prune_weights rng representatives input_dim st = Some st' ->
  t_cols x = Z.to_nat input_dim ->
  length representatives <> t_cols (running_activations st) ->
  length representatives <> 1%nat ->
  exists y,
    forward x st' = Some y /\
    t_cols y = length representatives /\
    accumulate_metrics y st' = None.
Proof.
  intros Hprune Hx Hne Hne1.
  destruct (prune_weights_spec _ _ _ _ _ Hprune)
    as (Hn & Hc & Hb & _ & _ & _ & Hra).
  destruct (forward_is_Some x st') as [y Hy]; [congruence|].
  destruct (forward_inv _ _ _ Hy) as (_ & _ & Hyc & Hwf).
  assert (Hwfy : t_wf y).
  { apply Hwf. rewrite Hb, length_replicate. congruence. }
  exists y. split; [exact Hy|]. split; [congruence|].
  apply accumulate_metrics_None, add_broadcast0_None.
  rewrite (sum_dim0_mask_length _ Hwfy), Hra. split; congruence.
Qed.

Lemma prune_then_accumulate_raises_witness :
  exists st' y,
    prune_weights demo_rng [0; 2] 2 trained_layer = Some st' /\
    forward (T2 2 [[1; 2]]%Q) st' = Some y /\
    t_cols y = 2%nat /\
    accumulate_metrics y st' = None.
Proof.
  eexists.
  destruct (prune_then_accumulate_raises demo_rng [0; 2] 2 trained_layer _
              (T2 2 [[1; 2]]%Q) eq_refl)
    as (y & Hy & Hc & Hacc); [reflexivity | vm_compute; lia
                              | vm_compute; lia |].
  exists y. split; [reflexivity|]. auto.
Defined.

(** ** Selecting representatives: errors *)

Lemma reduce_bucket_zero_divisor st nw bucket :
  num_class st = 0 \/ D st = 0 -> bucket <> [] ->
  reduce_bucket st nw bucket = None.
Proof.
  intros Hz Hne.
  assert (Hor : mapM (row_of st) bucket = None \/
                mapM (col_of st) bucket = None).
  { destruct bucket as [|f bucket]; [congruence|].
    destruct Hz as [Hz | Hz]; [left | right];
      apply mapM_None, Exists_cons_hd;
      unfold row_of, col_of, floordiv, pymod; rewrite Hz; reflexivity. }
  unfold reduce_bucket. destruct Hor as [-> | Hc]; [reflexivity|].
  destruct (mapM (row_of st) bucket); simpl; [rewrite Hc|]; reflexivity.
Qed.

Lemma process_bucket_zero_divisor st nw bucket :
  num_class st = 0 \/ D st = 0 -> bucket <> [] ->
  process_bucket st nw bucket = None.
Proof.
  intros Hz Hne. destruct bucket as [|f [|g bucket]]; [congruence| |].
  - unfold process_bucket, row_of, col_of, floordiv, pymod.
    destruct Hz as [-> | ->]; repeat case_decide; try congruence; reflexivity.
  - apply (reduce_bucket_zero_divisor st nw (f :: g :: bucket) Hz Hne).
Qed.

Lemma process_buckets_zero_divisor st bucket_indices : forall nw,
  num_class st = 0 \/ D st = 0 ->
  Exists (fun bucket => bucket <> []) bucket_indices ->
  process_buckets st nw bucket_indices = None.
Proof.
  induction bucket_indices as [|b bs IH]; intros nw Hz Hex.
  - inversion Hex.
  - simpl. inversion Hex as [? ? Hb | ? ? Hbs]; subst.
    + rewrite process_bucket_zero_divisor by assumption. reflexivity.
    + destruct (process_bucket st nw b) as [[r nw1]|]; [simpl|reflexivity].
      rewrite IH by assumption. reflexivity.
Qed.

(** X7: on a layer without units or without inputs ([num_class] or [D]
    zero, as a pruning with no representative or with [input_dim] 0 leaves
    it), [select_representatives] raises as soon as one bucket is not
    empty: the conversion of a member divides by zero. *)
Theorem select_representatives_zero_divisor bucket_indices st :
  num_class st = 0 \/ D st = 0 ->
  Exists (fun bucket => bucket <> []) bucket_indices ->
  select_representatives bucket_indices st = None.
Proof.
  intros Hz Hex. unfold select_representatives.
  rewrite process_buckets_zero_divisor by assumption. reflexivity.
Qed.

Lemma select_representatives_zero_divisor_witness :
  exists st,
    prune_weights demo_rng [0; 1] 0 trained_layer = Some st /\
    select_representatives [[]; [0; 1]] st = None.
Proof.
  eexists. split; [reflexivity|].
  apply select_representatives_zero_divisor.
  - right. reflexivity.
  - apply Exists_cons_tl, Exists_cons_hd. discriminate.
Defined.

(** ** Selecting representatives: the member chosen *)

Lemma reduce_bucket_inv st nw bucket r nw' :
  reduce_bucket st nw bucket = Some (r, nw') ->
  exists rows cols acts ws row col,
    mapM (row_of st) bucket = Some rows /\
    mapM (col_of st) bucket = Some cols /\
    gather2 (running_activations st) rows cols = Some acts /\
    gather2 (weight (params st)) rows cols = Some ws /\
    rows !! argmax acts = Some row /\ cols !! argmax acts = Some col /\
    set2 nw row col (representative_weight ws acts) = Some nw' /\
    r = flat_of st row col.
Proof.
  unfold reduce_bucket. intros H.
  destruct (mapM (row_of st) bucket) as [rows|] eqn:Erows;
    [simpl in H|discriminate].
  destruct (mapM (col_of st) bucket) as [cols|] eqn:Ecols;
    [simpl in H|discriminate].
  destruct (gather2 (running_activations st) rows cols) as [acts|] eqn:Eacts;
    [simpl in H|discriminate].
  destruct (gather2 (weight (params st)) rows cols) as [ws|] eqn:Ews;
    [simpl in H|discriminate].
  destruct (rows !! argmax acts) as [row|] eqn:Hrow; [simpl in H|discriminate].
  destruct (cols !! argmax acts) as [col|] eqn:Hcol; [simpl in H|discriminate].
  destruct (set2 nw row col _) as [nw1|] eqn:Hset; [simpl in H|discriminate].
  injection H as <- <-. exists rows, cols, acts, ws, row, col.
  repeat split; assumption || reflexivity.
Qed.

Lemma process_bucket_multi st nw bucket :
  (2 <= length bucket)%nat ->
  process_bucket st nw bucket = reduce_bucket st nw bucket.
Proof.
  destruct bucket as [|f [|g b]]; simpl; intros; [lia..|reflexivity].
Qed.

(** X8: in a bucket with several members the member kept is the first one,
    in the iteration order of the bucket, whose gathered activation count
    is maximal: no gathered count exceeds it and every earlier count is
    strictly smaller. *)
Theorem process_bucket_first_max st nw bucket r nw' :
  (2 <= length bucket)%nat ->
  process_bucket st nw bucket = Some (r, nw') ->
  exists rows cols acts k f m row col,
    mapM (row_of st) bucket = Some rows /\
    mapM (col_of st) bucket = Some cols /\
    gather2 (running_activations st) rows cols = Some acts /\
    bucket !! k = Some f /\ acts !! k = Some m /\
    (forall x, x ∈ acts -> x <= m) /\
    (forall k' x, (k' < k)%nat -> acts !! k' = Some x -> x < m) /\
    row_of st f = Some row /\ col_of st f = Some col /\
    r = flat_of st row col.
Proof.
  intros Hlen H. rewrite process_bucket_multi in H by exact Hlen.
  destruct (reduce_bucket_inv _ _ _ _ _ H)
    as (rows & cols & acts & ws & row & col
        & Hrows & Hcols & Hacts & _ & Hrow & Hcol & _ & ->).
  pose proof (length_mapM _ _ _ Hrows) as Lr.
  pose proof (length_mapM _ _ _ Hcols) as Lc.
  pose proof (gather2_length _ _ _ _ Hacts) as La.
  assert (Hne : acts <> []) by (intros ->; simpl in La; lia).
  destruct (argmax_first_max acts Hne) as (m & Hm & Hall & Hbefore).
  apply mapM_Some in Hrows. apply mapM_Some in Hcols.
  destruct (Forall2_lookup_r _ _ _ _ _ Hrows Hrow) as (f & Hf & Hfr).
  destruct (Forall2_lookup_r _ _ _ _ _ Hcols Hcol) as (f' & Hf' & Hfc).
  assert (f' = f) as -> by congruence.
  exists rows, cols, acts, (argmax acts), f, m, row, col.
  apply mapM_Some in Hrows. apply mapM_Some in Hcols.
  repeat split; auto.
  intros x Hx. exact (proj1 (Forall_forall _ _) Hall x Hx).
Qed.

Lemma process_bucket_first_max_witness :
  exists rows cols acts k f m row col,
    mapM (row_of trained_layer) [1; 2; 0] = Some rows /\
    mapM (col_of trained_layer) [1; 2; 0] = Some cols /\
    gather2 (running_activations trained_layer) rows cols = Some acts /\
    [1; 2; 0] !! k = Some f /\ acts !! k = Some m /\
    (forall x, x ∈ acts -> x <= m) /\
    (forall k' x, (k' < k)%nat -> acts !! k' = Some x -> x < m) /\
    row_of trained_layer f = Some row /\ col_of trained_layer f = Some col /\
    0 = flat_of trained_layer row col.
Proof.
  refine (process_bucket_first_max trained_layer
            (weight (params trained_layer)) [1; 2; 0] 0 _ _ eq_refl).
  simpl. lia.
Defined.

Lemma mapM_lookup_r {A B} (f : A -> option B) l k i y :
  mapM f l = Some k -> k !! i = Some y ->
  exists x, l !! i = Some x /\ f x = Some y.
Proof.
  intros H Hy. apply mapM_Some in H.
  exact (Forall2_lookup_r _ _ _ _ _ H Hy).
Qed.

Lemma process_bucket_single_inv st nw f r nw' :
  process_bucket st nw [f] = Some (r, nw') -> r = f.
Proof.
  unfold process_bucket. intros H.
  destruct (row_of st f) as [row|]; [simpl in H|discriminate].
  destruct (col_of st f) as [col|]; [simpl in H|discriminate].
  destruct (get2 _ row col) as [w|]; [simpl in H|discriminate].
  destruct (set2 nw row col w) as [nw0|]; [simpl in H|discriminate].
  injection H as <- _. reflexivity.
Qed.

(** X9: on a layer with as many units as inputs ([num_class = D]) the two
    divisors coincide, and the representative of a non-empty bucket is one
    of its members. *)
Theorem process_bucket_member_square st nw bucket r nw' :
  num_class st = D st -> bucket <> [] ->
  process_bucket st nw bucket = Some (r, nw') ->
  r ∈ bucket.
Proof.
  intros Hsq Hne H. destruct bucket as [|f [|g bucket]]; [congruence| |].
  - rewrite (process_bucket_single_inv _ _ _ _ _ H). apply list_elem_of_here.
  - rewrite process_bucket_multi in H by (simpl; lia).
    destruct (reduce_bucket_inv _ _ _ _ _ H)
      as (rows & cols & acts & ws & row & col
          & Hrows & Hcols & _ & _ & Hrow & Hcol & _ & ->).
    destruct (mapM_lookup_r _ _ _ _ _ Hrows Hrow) as (x & Hx & Hxr).
    destruct (mapM_lookup_r _ _ _ _ _ Hcols Hcol) as (x' & Hx' & Hxc).
    assert (x' = x) as -> by congruence.
    rewrite (flat_of_row_col _ _ _ _ Hxr Hxc), Hsq.
    replace (x - x `mod` D st + x `mod` D st) with x by lia.
    eapply list_elem_of_lookup_2; eauto.
Qed.

Lemma process_bucket_member_square_witness :
  1 ∈ [0; 1].
Proof.
  refine (process_bucket_member_square square_layer
            (weight (params square_layer)) [0; 1] 1 _ eq_refl _ eq_refl).
  discriminate.
Defined.

Lemma flat_of_round_trip_witness :
  flat_of trained_layer 0 1 = 1 <-> 1 `mod` 3 = 1 `mod` 2.
Proof.
  exact (flat_of_round_trip trained_layer 1 0 1 eq_refl eq_refl).
Defined.

(** ** Selecting representatives among row indices *)

Lemma norm_index_nonneg n i :
  0 <= i < Z.of_nat n -> norm_index n i = Some (Z.to_nat i).
Proof. intros H. unfold norm_index. case_decide; [reflexivity | lia]. Qed.

Lemma get2_is_Some {A} (t : Tensor2 A) r c :
  t_wf t -> 0 <= r < Z.of_nat (t_nrows t) -> 0 <= c < Z.of_nat (t_cols t) ->
  is_Some (get2 t r c).
Proof.
  intros Hwf Hr Hc. unfold get2.
  rewrite (norm_index_nonneg _ _ Hr). simpl.
  rewrite (norm_index_nonneg _ _ Hc). simpl. unfold cell.
  destruct (lookup_lt_is_Some_2 (t_rows t) (Z.to_nat r)) as [row Hrow];
    [unfold t_nrows in Hr; lia|].
  rewrite Hrow. simpl. apply lookup_lt_is_Some.
  rewrite (proj1 (Forall_lookup _ _) Hwf _ _ Hrow). lia.
Qed.

Lemma set2_same_shape_is_Some {A} (nw t : Tensor2 A) r c v :
  same_shape nw t -> is_Some (get2 t r c) -> is_Some (set2 nw r c v).
Proof.
  intros Hshape [x Hx].
  destruct (get2_cell _ _ _ _ Hx) as (i & j & Hi & Hj & Hc).
  rewrite <- (same_shape_nrows _ _ Hshape) in Hi.
  rewrite <- (proj1 Hshape) in Hj.
  destruct (set2_is_Some nw r c v i j Hi Hj) as (nw' & Hset & _); [|eauto].
  eapply same_shape_cell_is_Some; [apply same_shape_sym, Hshape | eauto].
Qed.

(** Where the conversion sends a row index: to row 0, at a column below
    both [D] and [num_class], which can be read in the weights and in the
    counters. *)
Lemma row_id_position st f :
  layer_ok st -> counters_ok st -> 0 < D st -> 0 <= f < num_class st ->
  row_of st f = Some 0 /\ col_of st f = Some (f `mod` D st) /\
  0 <= f `mod` D st < num_class st /\
  is_Some (get2 (weight (params st)) 0 (f `mod` D st)) /\
  is_Some (get2 (running_activations st) 0 (f `mod` D st)).
Proof.
  intros (Hnc & HD & Hwf & Hn & Hc & _) (Hrwf & Hrn & Hrc) HDpos Hf.
  pose proof (Z.mod_pos_bound f (D st) HDpos) as Hm.
  pose proof (Z.mod_le f (D st) ltac:(lia) HDpos) as Hle.
  split; [|split; [|split; [|split]]].
  - unfold row_of, floordiv. rewrite decide_False by lia.
    rewrite Z.div_small by lia. reflexivity.
  - unfold col_of, pymod. rewrite decide_False by lia. reflexivity.
  - lia.
  - apply get2_is_Some; [exact Hwf | lia | lia].
  - apply get2_is_Some; [exact Hrwf | lia | lia].
Qed.

Lemma gather2_row_ids {A} st (t : Tensor2 A) bucket rows cols :
  layer_ok st -> counters_ok st -> 0 < D st ->
  Forall (fun f => 0 <= f < num_class st) bucket ->
  mapM (row_of st) bucket = Some rows ->
  mapM (col_of st) bucket = Some cols ->
  (forall f, 0 <= f < num_class st -> is_Some (get2 t 0 (f `mod` D st))) ->
  is_Some (gather2 t rows cols).
Proof.
  intros Hok Hcok HD Hall Hrows Hcols Hget. unfold gather2.
  apply mapM_is_Some, Forall_lookup. intros k [r c] Hk. simpl.
  rewrite lookup_zip_with in Hk.
  destruct (rows !! k) as [r'|] eqn:Hr; [simpl in Hk|discriminate].
  destruct (cols !! k) as [c'|] eqn:Hc; [simpl in Hk|discriminate].
  injection Hk as -> ->.
  destruct (mapM_lookup_r _ _ _ _ _ Hrows Hr) as (f & Hf & Hfr).
  destruct (mapM_lookup_r _ _ _ _ _ Hcols Hc) as (f' & Hf' & Hfc).
  assert (f' = f) as -> by congruence.
  assert (Hrange : 0 <= f < num_class st).
  { exact (proj1 (Forall_lookup _ _) Hall _ _ Hf). }
  destruct (row_id_position st f Hok Hcok HD Hrange) as (Hr0 & Hc0 & _).
  assert (r = 0) as -> by congruence.
  assert (c = f `mod` D st) as -> by congruence.
  apply Hget, Hrange.
Qed.

Lemma process_bucket_row_ids st nw bucket :
  layer_ok st -> counters_ok st -> 0 < D st ->
  Forall (fun f => 0 <= f < num_class st) bucket ->
  same_shape nw (weight (params st)) ->
  exists r nw',
    process_bucket st nw bucket = Some (r, nw') /\
    (r = -1 \/ 0 <= r < num_class st).
Proof.
  intros Hok Hcok HD Hall Hshape.
  destruct bucket as [|f [|g bucket]].
  - eexists _, _. split; [reflexivity | auto].
  - inversion Hall as [|? ? Hf _]; subst.
    destruct (row_id_position st f Hok Hcok HD Hf)
      as (Hr & Hc & _ & [w Hw] & _).
    destruct (set2_same_shape_is_Some nw _ 0 (f `mod` D st) w Hshape)
      as [nw' Hset]; [eauto|].
    exists f, nw'. unfold process_bucket. rewrite Hr. simpl. rewrite Hc. simpl.
    rewrite Hw. simpl. rewrite Hset. simpl. split; [reflexivity | lia].
  - rewrite process_bucket_multi by (simpl; lia).
    remember (f :: g :: bucket) as b eqn:Hb.
    assert (Hlen : (2 <= length b)%nat) by (subst b; simpl; lia).
    clear Hb f g bucket.
    destruct (mapM (row_of st) b) as [rows|] eqn:Hrows.
    2:{ apply mapM_None in Hrows. apply Exists_exists in Hrows
          as (f & Hin & Hnone).
        pose proof (proj1 (Forall_forall _ _) Hall f Hin) as Hf.
        destruct (row_id_position st f Hok Hcok HD Hf) as (Hr & _).
        congruence. }
    destruct (mapM (col_of st) b) as [cols|] eqn:Hcols.
    2:{ apply mapM_None in Hcols. apply Exists_exists in Hcols
          as (f & Hin & Hnone).
        pose proof (proj1 (Forall_forall _ _) Hall f Hin) as Hf.
        destruct (row_id_position st f Hok Hcok HD Hf) as (_ & Hc & _).
        congruence. }
    destruct (gather2_row_ids st (running_activations st) b rows cols
                Hok Hcok HD Hall Hrows Hcols) as [acts Hacts].
    { intros f Hf. apply (row_id_position st f Hok Hcok HD Hf). }
    destruct (gather2_row_ids st (weight (params st)) b rows cols
                Hok Hcok HD Hall Hrows Hcols) as [ws Hws].
    { intros f Hf. apply (row_id_position st f Hok Hcok HD Hf). }
    pose proof (length_mapM _ _ _ Hrows) as Lr.
    pose proof (length_mapM _ _ _ Hcols) as Lc.
    pose proof (gather2_length _ _ _ _ Hacts) as La.
    assert (Hne : acts <> []) by (intros ->; simpl in La; lia).
    pose proof (argmax_lt acts Hne) as Hk.
    destruct (lookup_lt_is_Some_2 rows (argmax acts)) as [row Hrow]; [lia|].
    destruct (lookup_lt_is_Some_2 cols (argmax acts)) as [col Hcol]; [lia|].
    destruct (mapM_lookup_r _ _ _ _ _ Hrows Hrow) as (f & Hf & Hfr).
    destruct (mapM_lookup_r _ _ _ _ _ Hcols Hcol) as (f' & Hf' & Hfc).
    assert (f' = f) as -> by congruence.
    pose proof (proj1 (Forall_lookup _ _) Hall _ _ Hf) as Hrange.
    destruct (row_id_position st f Hok Hcok HD Hrange)
      as (Hr0 & Hc0 & Hcol_range & Hgw & _).
    assert (row = 0) as -> by congruence.
    assert (col = f `mod` D st) as -> by congruence.
    destruct (set2_same_shape_is_Some nw _ 0 (f `mod` D st)
                (representative_weight ws acts) Hshape Hgw) as [nw' Hset].
    exists (flat_of st 0 (f `mod` D st)), nw'. split.
    + unfold reduce_bucket. rewrite Hrows. simpl. rewrite Hcols. simpl.
      rewrite Hacts. simpl. rewrite Hws. simpl. rewrite Hrow. simpl.
      rewrite Hcol. simpl. rewrite Hset. reflexivity.
    + right. unfold flat_of. lia.
Qed.

Lemma process_buckets_row_ids st bucket_indices : forall nw,
  layer_ok st -> counters_ok st -> 0 < D st ->
  row_ids st bucket_indices ->
  same_shape nw (weight (params st)) ->
  exists reps nw',
    process_buckets st nw bucket_indices = Some (reps, nw') /\
    same_shape nw' (weight (params st)) /\
    length reps = length bucket_indices /\
    Forall (fun r => r = -1 \/ 0 <= r < num_class st) reps.
Proof.
  induction bucket_indices as [|b bs IH]; intros nw Hok Hcok HD Hall Hshape.
  - eexists _, _. split; [reflexivity|]. auto.
  - inversion Hall as [|? ? Hb Hbs]; subst.
    destruct (process_bucket_row_ids st nw b Hok Hcok HD Hb Hshape)
      as (r & nw1 & Hpb & Hr).
    destruct (process_bucket_frame _ _ _ _ _ Hshape Hpb) as [Hsh1 _].
    destruct (IH nw1 Hok Hcok HD Hbs (same_shape_trans _ _ _ Hsh1 Hshape))
      as (rs & nw2 & Hrest & Hsh2 & Hlen & Hrs).
    exists (r :: rs), nw2. simpl. rewrite Hpb. simpl. rewrite Hrest. simpl.
    split; [reflexivity|]. split; [exact Hsh2|].
    split; [congruence | constructor; assumption].
Qed.

(** X11: on a well-formed layer with at least one input whose counters
    can be read, [select_representatives] does not raise when the buckets
    hold row indices, and every representative it returns is the sentinel
    or a row index. *)
Theorem select_representatives_row_ids bucket_indices st :
  layer_ok st -> counters_ok st -> 0 < D st ->
  row_ids st bucket_indices ->
  exists reps st',
    select_representatives bucket_indices st = Some (reps, st') /\
    length reps = length bucket_indices /\
    Forall (fun r => r = -1 \/ 0 <= r < num_class st) reps.
Proof.
  intros Hok Hcok HD Hall.
  destruct (process_buckets_row_ids st bucket_indices (weight (params st))
              Hok Hcok HD Hall (same_shape_refl _))
    as (reps & nw & Hrun & _ & Hlen & Hreps).
  unfold select_representatives. rewrite Hrun. simpl. eauto.
Qed.

Lemma trained_layer_ok : layer_ok trained_layer /\ counters_ok trained_layer.
Proof.
  split.
  - unfold layer_ok. repeat split; try (vm_compute; congruence).
    unfold t_wf. simpl. repeat (apply Forall_cons_2; [reflexivity|]).
    apply Forall_nil_2.
  - unfold counters_ok. split; [|split].
    + unfold t_wf. simpl. repeat (apply Forall_cons_2; [reflexivity|]).
      apply Forall_nil_2.
    + vm_compute. lia.
    + vm_compute. congruence.
Qed.

Lemma select_representatives_row_ids_witness :
  exists reps st',
    select_representatives [[]; [0]; [1; 2]] trained_layer = Some (reps, st') /\
    length reps = 3%nat /\
    Forall (fun r => r = -1 \/ 0 <= r < 3) reps.
Proof.
  apply (select_representatives_row_ids [[]; [0]; [1; 2]] trained_layer).
  - apply trained_layer_ok.
  - apply trained_layer_ok.
  - reflexivity.
  - repeat constructor; vm_compute; congruence.
Defined.

Lemma chosen_position_row_ids st bucket i j :
  Forall (fun f => 0 <= f < num_class st) bucket ->
  chosen_position st bucket = Some (i, j) -> i = 0%nat.
Proof.
  unfold chosen_position. intros Hall H.
  destruct (mapM (row_of st) bucket) as [rows|] eqn:Hrows;
    [simpl in H|discriminate].
  destruct (mapM (col_of st) bucket) as [cols|]; [simpl in H|discriminate].
  destruct (gather2 _ rows cols) as [acts|]; [simpl in H|discriminate].
  destruct (rows !! argmax acts) as [row|] eqn:Hrow; [simpl in H|discriminate].
  destruct (cols !! argmax acts) as [col|]; [simpl in H|discriminate].
  destruct (norm_index _ row) as [i'|] eqn:Hi; [simpl in H|discriminate].
  destruct (norm_index _ col) as [j'|]; [simpl in H|discriminate].
  injection H as <- <-.
  destruct (mapM_lookup_r _ _ _ _ _ Hrows Hrow) as (f & Hf & Hfr).
  pose proof (proj1 (Forall_lookup _ _) Hall _ _ Hf) as Hrange.
  simpl in Hrange.
  unfold row_of, floordiv in Hfr. case_decide; [discriminate|].
  injection Hfr as <-. rewrite Z.div_small in Hi by lia.
  unfold norm_index in Hi. repeat case_decide; try lia; try discriminate.
  injection Hi as <-. reflexivity.
Qed.

(** X12: with buckets of row indices, every member is sent to row 0 (the
    row is [f // num_class] with [f < num_class]): whatever the buckets,
    [select_representatives] changes no weight outside the first row of
    the weight matrix. *)
Theorem select_representatives_first_row_only bucket_indices st reps st' :
  row_ids st bucket_indices ->
  select_representatives bucket_indices st = Some (reps, st') ->
  forall i j, i <> 0%nat ->
    cell (weight (params st')) i j = cell (weight (params st)) i j.
Proof.
  intros Hall Hsel i j Hi. unfold select_representatives in Hsel.
  destruct (process_buckets st _ bucket_indices) as [[rs nw]|] eqn:Hrun;
    [simpl in Hsel|discriminate].
  injection Hsel as _ <-. simpl.
  destruct (process_buckets_frame _ _ _ _ _ (same_shape_refl _) Hrun)
    as [_ Hcells].
  destruct (Hcells i j) as [Heq | [Heq | (b & Hin & _ & Hpos)]]; [auto..|].
  exfalso. apply Hi.
  eapply chosen_position_row_ids; [|exact Hpos].
  exact (proj1 (Forall_forall _ _) Hall b Hin).
Qed.

Lemma select_representatives_first_row_only_witness :
  exists reps st',
    select_representatives [[0; 1; 2]] trained_layer = Some (reps, st') /\
    cell (weight (params st')) 2 1 = cell (weight (params trained_layer)) 2 1.
Proof.
  eexists _, _. split; [vm_compute; reflexivity|].
  refine (select_representatives_first_row_only [[0; 1; 2]] trained_layer
            _ _ _ _ 2%nat 1%nat _).
  - repeat constructor; vm_compute; congruence.
  - vm_compute. reflexivity.
  - discriminate.
Defined.

(** ** update_weights *)

Lemma select_representatives_inv bucket_indices st reps st' :
  select_representatives bucket_indices st = Some (reps, st') ->
  length reps = length bucket_indices /\
  same_shape (weight (params st')) (weight (params st)) /\
  bias (params st') = bias (params st) /\
  running_activations st' = running_activations st.
Proof.
  unfold select_representatives. intros Hsel.
  destruct (process_buckets st _ bucket_indices) as [[rs nw]|] eqn:Hrun;
    [simpl in Hsel|discriminate].
  injection Hsel as <- <-. simpl.
  pose proof (process_buckets_reps _ _ _ _ _ Hrun) as Hall.
  destruct (process_buckets_frame _ _ _ _ _ (same_shape_refl _) Hrun)
    as [Hshape _].
  split; [symmetry; exact (Forall2_length _ _ _ Hall) | auto].
Qed.

(** X13: whenever [update_weights] returns, the new layer has one unit per
    enumerated bucket (empty buckets included) and [input_dim] inputs, all
    its weights are fresh draws and its biases zero, and the counters are
    those from before the call. *)
Theorem update_weights_spec rng bucket_indices input_dim st st' :
  update_weights rng bucket_indices input_dim st = Some st' ->
  shape (weight (params st')) = (length bucket_indices, Z.to_nat input_dim) /\
  num_class st' = Z.of_nat (length bucket_indices) /\
  D st' = input_dim /\
  bias (params st') = replicate (length bucket_indices) 0%Q /\
  (forall i j x, cell (weight (params st')) i j = Some x -> x = rng i j) /\
  running_activations st' = running_activations st.
Proof.
  unfold update_weights. intros H.
  destruct (select_representatives bucket_indices st) as [[reps st1]|] eqn:Hsel;
    [simpl in H|discriminate].
  destruct (select_representatives_inv _ _ _ _ Hsel) as (Hlen & _ & _ & Hra).
  destruct (prune_weights_spec _ _ _ _ _ H)
    as (Hn & Hc & Hb & Hcells & Hnc & HD & Hra').
  unfold shape. rewrite Hn, Hc, Hb, Hnc, HD, Hra', Hra, Hlen.
  repeat split; auto.
Qed.

Lemma update_weights_spec_witness :
  exists st',
    update_weights demo_rng [[]; [0]; [1; 2]] 2 trained_layer = Some st' /\
    shape (weight (params st')) = (3%nat, 2%nat).
Proof.
  eexists. split; [vm_compute; reflexivity|].
  refine (proj1 (update_weights_spec demo_rng [[]; [0]; [1; 2]] 2
                   trained_layer _ _)).
  vm_compute. reflexivity.
Defined.

Lemma prune_weights_is_Some rng representatives input_dim st :
  Forall (fun r => - Z.of_nat (t_nrows (weight (params st))) <= r
                   < Z.of_nat (t_nrows (weight (params st))))
         representatives ->
  length (bias (params st)) = t_nrows (weight (params st)) ->
  0 <= input_dim <= Z.of_nat (t_cols (weight (params st))) ->
  is_Some (prune_weights rng representatives input_dim st).
Proof.
  intros Hall Hbias Hdim.
  assert (Hslice : slice_len (t_cols (weight (params st))) input_dim
                   = Z.to_nat input_dim).
  { unfold slice_len. case_decide; lia. }
  destruct (mapM_index_is_Some (t_rows (weight (params st))) representatives
              Hall) as [rs Hrs].
  destruct (mapM_index_is_Some (bias (params st)) representatives) as [pb Hpb].
  { rewrite Hbias. exact Hall. }
  unfold prune_weights, copied_layer, pruned_weights, index_rows, t_nrows.
  rewrite Hrs. simpl. unfold pruned_biases, index1. rewrite Hpb. simpl.
  rewrite decide_True by lia. unfold copy2. simpl.
  rewrite decide_True by congruence. simpl. eauto.
Qed.

(** X14: on a well-formed layer with at least one unit and one input whose
    counters can be read, [update_weights] does not raise when the buckets
    hold row indices and [input_dim] does not exceed the number of inputs:
    every representative, the sentinel included, is a valid row index for
    the pruning. *)
Theorem update_weights_row_ids rng bucket_indices input_dim st :
  layer_ok st -> counters_ok st -> 0 < D st -> 0 < num_class st ->
  row_ids st bucket_indices ->
  0 <= input_dim <= D st ->
  is_Some (update_weights rng bucket_indices input_dim st).
Proof.
  intros Hok Hcok HD Hnc Hall Hdim.
  destruct (process_buckets_row_ids st bucket_indices (weight (params st))
              Hok Hcok HD Hall (same_shape_refl _))
    as (reps & nw & Hrun & Hshape & _ & Hreps).
  destruct Hok as (_ & _ & _ & Hn & Hc & Hb).
  unfold update_weights, select_representatives. rewrite Hrun. simpl.
  apply prune_weights_is_Some; simpl.
  - rewrite (same_shape_nrows _ _ Hshape), Hn.
    eapply Forall_impl; [exact Hreps|]. simpl. intros r Hr. lia.
  - rewrite (same_shape_nrows _ _ Hshape). exact Hb.
  - rewrite (proj1 Hshape), Hc. lia.
Qed.

Lemma update_weights_row_ids_witness :
  is_Some (update_weights demo_rng [[]; [0]; [1; 2]] 1 trained_layer).
Proof.
  apply update_weights_row_ids.
  - apply trained_layer_ok.
  - apply trained_layer_ok.
  - reflexivity.
  - reflexivity.
  - repeat constructor; vm_compute; congruence.
  - vm_compute. split; congruence.
Defined.

(** ** The matrix handed to the LSH index *)

Lemma snoc_rows_inv {A} c (rows : list (list A)) : forall bs,
  Forall (fun r => length r = c) rows -> length bs = length rows ->
  take c <$> zip_with (fun (r : list A) (b : A) => r ++ [b]) rows bs = rows /\
  last <$> zip_with (fun (r : list A) (b : A) => r ++ [b]) rows bs
  = Some <$> bs.
Proof.
  induction rows as [|r rows IH]; intros [|b bs] Hwf Hlen;
    simpl in Hlen; try lia; [split; reflexivity|].
  inversion Hwf as [|? ? Hr Hrows]; subst.
  destruct (IH bs Hrows ltac:(lia)) as [IH1 IH2]. csimpl.
  rewrite IH1, IH2, take_app_length, last_snoc. split; reflexivity.
Qed.

(** X15: on a well-formed layer the matrix that [initializeLSH] and
    [rebuildLSH] hand to the index has one row per unit ([num_class], the
    count passed to [insert_multi]) and [D + 1] columns (the dimension
    [SimHash] is built with); each row is a weight row followed by its
    bias, so that cutting the last column off gives the weight matrix back
    and the last column is the bias. *)
Theorem weight_tolsh_spec st :
  layer_ok st ->
  exists t,
    weight_tolsh st = Some t /\
    shape t = (Z.to_nat (num_class st), Z.to_nat (D st + 1)) /\
    t_wf t /\
    take (Z.to_nat (D st)) <$> t_rows t = t_rows (weight (params st)) /\
    last <$> t_rows t = Some <$> bias (params st).
Proof.
  intros (Hnc & HD & Hwf & Hn & Hc & Hb).
  unfold weight_tolsh. rewrite decide_True by exact Hb.
  eexists. split; [reflexivity|].
  destruct (snoc_rows_inv (t_cols (weight (params st)))
              (t_rows (weight (params st))) (bias (params st)) Hwf Hb)
    as [Htake Hlast].
  unfold shape, t_nrows, t_wf in *. simpl.
  split; [|split; [|split]].
  - rewrite length_zip_with, Hb, Hn. f_equal; lia.
  - apply Forall_lookup. intros i r Hr. rewrite lookup_zip_with in Hr.
    destruct (t_rows (weight (params st)) !! i) as [row|] eqn:Hrow;
      [simpl in Hr|discriminate].
    destruct (bias (params st) !! i) as [b|]; [simpl in Hr|discriminate].
    injection Hr as <-. rewrite length_app. simpl.
    rewrite (proj1 (Forall_lookup _ _) Hwf _ _ Hrow). lia.
  - rewrite <- Hc. exact Htake.
  - exact Hlast.
Qed.

Lemma weight_tolsh_spec_witness :
  exists t,
    weight_tolsh trained_layer = Some t /\
    shape t = (3%nat, 3%nat) /\
    t_wf t /\
    take 2 <$> t_rows t = [[1; 2]; [3; 4]; [5; 6]]%Q /\
    last <$> t_rows t = Some <$> [7; 8; 9]%Q.
Proof.
  apply (weight_tolsh_spec trained_layer). apply trained_layer_ok.
Defined.
